(** * ImpalaPythia backend: status propagation, runtime state, counters,
    the retrying Thrift client and the Pythia projection operator.

  The development embeds the following pieces of the backend and proves the
  properties the design document states about them:

  - [be/src/service/fragment-exec-state.cc]  ([FragmentExecState])
  - [be/src/runtime/runtime-state.cc]        ([RuntimeState])
  - [be/src/util/runtime-profile.h]          ([HighWaterMarkCounter],
                                              [RuntimeProfile])
  - [be/src/rpc/thrift-client.cc]            ([ThriftClientImpl])
  - [be/src/pythia/operators/project.cpp]    ([Project])

  Locks are modelled by the atomicity of one function application: every
  method below is one critical section (or a sequence of them) run by a
  single thread.  Part I holds the definitions, Part II the theorems. *)

From Stdlib Require Import ZArith Lia List String Ascii Bool.
From stdpp Require Import base tactics option list strings pretty gmap.

Local Open Scope Z_scope.

(** * Part I: the embedding *)

(** ** Machine integers *)

Module Int.

(** [int64_t]: two's complement wrap-around of a mathematical integer. *)
Definition wrap64 (z : Z) : Z := (z + 2 ^ 63) mod 2 ^ 64 - 2 ^ 63.

Definition in_int64 (z : Z) : Prop := - 2 ^ 63 <= z < 2 ^ 63.

Definition INT_MAX : Z := 2 ^ 31 - 1.
Definition INT_MIN : Z := - 2 ^ 31.

(** Conversion of a signed integer to [size_t] (64 bits), as the usual
    arithmetic conversions do when an [int] meets a [size_t]. *)
Definition to_size_t (z : Z) : Z := z mod 2 ^ 64.

(** [static_cast<unsigned int>] and [uint32_t] arithmetic. *)
Definition to_uint32 (z : Z) : Z := z mod 2 ^ 32.

End Int.

(** ** Status *)

Module TStatusCode.
Inductive type : Set :=
| OK
| CANCELLED
| ANALYSIS_ERROR
| NOT_IMPLEMENTED_ERROR
| RUNTIME_ERROR
| MEM_LIMIT_EXCEEDED
| INTERNAL_ERROR.
End TStatusCode.

Module Status.

(** Modelled from the spec: [common/status.h] is not part of the sources at
    hand.  A status is a code with its error messages; it is [ok] exactly
    when the code is [OK]. *)
Record t : Type := mk { code : TStatusCode.type; error_msgs : list string }.

Definition OK : t := mk TStatusCode.OK [].

Definition MEM_LIMIT_EXCEEDED : t :=
  mk TStatusCode.MEM_LIMIT_EXCEEDED ["Memory limit exceeded"%string].

(** [Status(const std::string&)]: an internal error carrying one message. *)
Definition of_msg (msg : string) : t := mk TStatusCode.INTERNAL_ERROR [msg].

Definition ok (s : t) : bool :=
  match code s with
  | TStatusCode.OK => true
  | _ => false
  end.

Definition IsMemLimitExceeded (s : t) : bool :=
  match code s with
  | TStatusCode.MEM_LIMIT_EXCEEDED => true
  | _ => false
  end.

(** [endl] and the "\n" of the sources. *)
Definition endl : string := String (ascii_of_nat 10) EmptyString.

(** [GetErrorMsg]: the messages joined by newlines. *)
Definition GetErrorMsg (s : t) : string := String.concat endl (error_msgs s).

End Status.

(** ** FragmentExecState (fragment-exec-state.cc) *)

Module FragmentExecState.

(** The fields [UpdateStatus] and [Cancel] touch: the sticky status and
    whether the executor has been told to cancel. *)
Record t : Type := mk {
  exec_status_ : Status.t;
  executor_cancelled : bool
}.

(** A newly constructed state: [exec_status_] is default-constructed. *)
Definition new : t := mk Status.OK false.

Definition set_exec_status (st : Status.t) (this : t) : t :=
  mk st (executor_cancelled this).

(** [if (!status.ok() && exec_status_.ok()) exec_status_ = status;
     return exec_status_;] *)
Definition UpdateStatus (status : Status.t) (this : t) : Status.t * t :=
  let this' :=
    if negb (Status.ok status) && Status.ok (exec_status_ this)
    then set_exec_status status this
    else this in
  (exec_status_ this', this').

(** [RETURN_IF_ERROR(exec_status_); executor_.Cancel(); return Status::OK;] *)
Definition Cancel (this : t) : Status.t * t :=
  if Status.ok (exec_status_ this)
  then (Status.OK, mk (exec_status_ this) true)
  else (exec_status_ this, this).

(** A sequence of [UpdateStatus] calls: the values returned, in order, and
    the final state. *)
Fixpoint UpdateStatus_seq (calls : list Status.t) (this : t)
  : list Status.t * t :=
  match calls with
  | [] => ([], this)
  | status :: rest =>
      let (r, this1) := UpdateStatus status this in
      let (rs, this2) := UpdateStatus_seq rest this1 in
      (r :: rs, this2)
  end.

End FragmentExecState.

(** ** HighWaterMarkCounter (runtime-profile.h) *)

Module AtomicInt.

(** Modelled from the spec: [common/atomic.h] is not part of the sources.
    An [AtomicInt<int64_t>] is its value; each operation below is one atomic
    step. *)

(** [UpdateAndFetch(delta)]: add and return the new value. *)
Definition UpdateAndFetch (a delta : Z) : Z := Int.wrap64 (a + delta).

(** [UpdateMax(v)]: raise the value to [v] if [v] is larger. *)
Definition UpdateMax (a v : Z) : Z := Z.max a v.

(** [Swap(old_val, new_val)]: compare-and-swap; tells whether it swapped. *)
Definition Swap (a old_val new_val : Z) : bool * Z :=
  if a =? old_val then (true, new_val) else (false, a).

End AtomicInt.

Module TCounterType.
Inductive type : Set := UNIT | BYTES | TIME_NS | DOUBLE_VALUE | BITMAP.
End TCounterType.

Module HighWaterMarkCounter.

(** [value_] (inherited from [Counter]) is the high water mark,
    [current_value_] the current value. *)
Record t : Type := mk {
  value_ : Z;
  type_ : TCounterType.type;
  current_value_ : Z
}.

(** [HighWaterMarkCounter(type) : Counter(type) {}] *)
Definition new (type : TCounterType.type) : t := mk 0 type 0.

Definition value (c : t) : Z := value_ c.
Definition current_value (c : t) : Z := current_value_ c.

(** [int64_t new_val = current_value_.UpdateAndFetch(delta);
     value_.UpdateMax(new_val);] *)
Definition Update (delta : Z) (c : t) : t :=
  let new_val := AtomicInt.UpdateAndFetch (current_value_ c) delta in
  mk (AtomicInt.UpdateMax (value_ c) new_val) (type_ c) new_val.

(** The [while (true)] loop of [TryUpdate]; [fuel] bounds the number of
    compare-and-swap attempts.  [old_val + delta] is computed in
    [int64_t]. *)
Fixpoint TryUpdate_loop (fuel : nat) (delta max : Z) (c : t)
  : option (bool * t) :=
  match fuel with
  | O => None
  | S fuel' =>
      let old_val := current_value_ c in
      let new_val := Int.wrap64 (old_val + delta) in
      if new_val >? max then Some (false, c)
      else
        let (swapped, cur) :=
          AtomicInt.Swap (current_value_ c) old_val new_val in
        if swapped
        then Some (true,
                   mk (AtomicInt.UpdateMax (value_ c) new_val) (type_ c) cur)
        else TryUpdate_loop fuel' delta max (mk (value_ c) (type_ c) cur)
  end.

(** [Set(int64_t v)] *)
Definition Set_ (v : Z) (c : t) : t :=
  mk (AtomicInt.UpdateMax (value_ c) v) (type_ c) v.

(** A sequence of [Update] calls. *)
Definition Update_seq (deltas : list Z) (c : t) : t :=
  fold_left (fun c d => Update d c) deltas c.

(** The current value after a run of updates that starts at [cur]. *)
Fixpoint running (cur : Z) (deltas : list Z) : Z :=
  match deltas with
  | [] => cur
  | d :: ds => running (cur + d) ds
  end.

(** The largest of [hwm] and the values the current value takes. *)
Fixpoint peak (hwm cur : Z) (deltas : list Z) : Z :=
  match deltas with
  | [] => hwm
  | d :: ds => peak (Z.max hwm (cur + d)) (cur + d) ds
  end.

(** The current value stays within [int64_t] all along. *)
Fixpoint no_overflow (cur : Z) (deltas : list Z) : Prop :=
  match deltas with
  | [] => True
  | d :: ds => Int.in_int64 (cur + d) /\ no_overflow (cur + d) ds
  end.

(** [TryUpdate] as a sequential call: one round of the loop. *)
Definition TryUpdate (delta max : Z) (c : t) : bool * t :=
  match TryUpdate_loop 1 delta max c with
  | Some r => r
  | None => (false, c)
  end.

(** The calls that change a counter. *)
Inductive op : Type :=
| OpUpdate (delta : Z)
| OpTryUpdate (delta max : Z)
| OpSet (v : Z).

Definition run_op (o : op) (c : t) : t :=
  match o with
  | OpUpdate delta => Update delta c
  | OpTryUpdate delta max => snd (TryUpdate delta max c)
  | OpSet v => Set_ v c
  end.

Definition run_ops (os : list op) (c : t) : t :=
  fold_left (fun c o => run_op o c) os c.

End HighWaterMarkCounter.

(** ** RuntimeState (runtime-state.cc) *)

Module RuntimeState.

(** The query options [Init] reads and writes (thrift [i32] and [bool]). *)
Record TQueryOptions : Type := mkOptions {
  disable_codegen : bool;
  max_errors : Z;
  batch_size : Z
}.

(** Modelled from the spec: [runtime/mem-tracker.h] is not part of the
    sources.  What [SetMemLimitExceeded] reads of a tracker: its label,
    whether its limit is exceeded, and its usage dump. *)
Record MemTracker : Type := mkTracker {
  label : string;
  LimitExceeded : bool;
  LogUsage : string
}.

Record ExecEnv : Type := mkEnv { process_mem_tracker : MemTracker }.

(** Pointers are options: [None] is [NULL]. *)
Record t : Type := mk {
  fragment_instance_id_ : Z * Z;
  query_options : TQueryOptions;
  exec_env_ : option ExecEnv;
  codegen_ : bool;
  resource_pool_ : bool;
  error_log_ : list string;
  unreported_error_idx_ : nat;
  query_status_ : Status.t;
  query_mem_tracker_ : option MemTracker;
  is_cancelled_ : bool
}.

Definition set_options (o : TQueryOptions) (s : t) : t :=
  mk (fragment_instance_id_ s) o (exec_env_ s) (codegen_ s)
     (resource_pool_ s) (error_log_ s) (unreported_error_idx_ s)
     (query_status_ s) (query_mem_tracker_ s) (is_cancelled_ s).

Definition set_max_errors (n : Z) (s : t) : t :=
  let o := query_options s in
  set_options (mkOptions (disable_codegen o) n (batch_size o)) s.

Definition set_batch_size (n : Z) (s : t) : t :=
  let o := query_options s in
  set_options (mkOptions (disable_codegen o) (max_errors o) n) s.

Definition set_codegen (b : bool) (s : t) : t :=
  mk (fragment_instance_id_ s) (query_options s) (exec_env_ s) b
     (resource_pool_ s) (error_log_ s) (unreported_error_idx_ s)
     (query_status_ s) (query_mem_tracker_ s) (is_cancelled_ s).

Definition set_error_log (l : list string) (s : t) : t :=
  mk (fragment_instance_id_ s) (query_options s) (exec_env_ s) (codegen_ s)
     (resource_pool_ s) l (unreported_error_idx_ s)
     (query_status_ s) (query_mem_tracker_ s) (is_cancelled_ s).

Definition set_unreported_error_idx (i : nat) (s : t) : t :=
  mk (fragment_instance_id_ s) (query_options s) (exec_env_ s) (codegen_ s)
     (resource_pool_ s) (error_log_ s) i
     (query_status_ s) (query_mem_tracker_ s) (is_cancelled_ s).

Definition set_query_status (st : Status.t) (s : t) : t :=
  mk (fragment_instance_id_ s) (query_options s) (exec_env_ s) (codegen_ s)
     (resource_pool_ s) (error_log_ s) (unreported_error_idx_ s)
     st (query_mem_tracker_ s) (is_cancelled_ s).

(** The members as the constructors' initialiser lists leave them. *)
Definition initial (opts : TQueryOptions) : t :=
  mk (0, 0) opts None false false [] 0%nat Status.OK None false.

(** [return (error_log_.size() > 0);] *)
Definition ErrorLogIsEmpty (this : t) : bool :=
  Z.of_nat (length (error_log_ this)) >? 0.

(** [return join(error_log_, "\n");] *)
Definition ErrorLog (this : t) : string :=
  String.concat Status.endl (error_log_ this).

(** [LogError(const string&)].  The size of the log is a [size_t], the
    option an [int]: the comparison converts the option to [size_t]. *)
Definition LogError (error : string) (this : t) : bool * t :=
  if Z.of_nat (length (error_log_ this))
       <? Int.to_size_t (max_errors (query_options this))
  then (true, set_error_log (error_log_ this ++ [error]) this)
  else (false, this).

(** [LogError(const Status&)] *)
Definition LogError_status (status : Status.t) (this : t) : t :=
  if Status.ok status then this
  else snd (LogError (Status.GetErrorMsg status) this).

(** [GetUnreportedErrors(vector<string>* new_errors)]: the vector the
    caller passes is the second argument, what it holds afterwards the
    first component of the result. *)
Definition GetUnreportedErrors (new_errors : list string) (this : t)
  : list string * t :=
  if (unreported_error_idx_ this <? length (error_log_ this))%nat
  then (drop (unreported_error_idx_ this) (error_log_ this),
        set_unreported_error_idx (length (error_log_ this)) this)
  else (new_errors, this).

Section Env.

(** The compile-time batch size, the outcome of
    [LlvmCodeGen::LoadImpalaIR] and [PrettyPrinter::Print] are defined
    outside these sources. *)
Variable DEFAULT_BATCH_SIZE : Z.
Variable LoadImpalaIR : Status.t.
Variable PrettyPrinter_Print : Z -> TCounterType.type -> string.

Definition CreateCodegen (this : t) : Status.t * t :=
  if codegen_ this then (Status.OK, this)
  else if Status.ok LoadImpalaIR
       then (Status.OK, set_codegen true this)
       else (LoadImpalaIR, this).

Definition Init (fragment_instance_id : Z * Z) (exec_env : option ExecEnv)
           (this : t) : Status.t * t :=
  let this :=
    mk fragment_instance_id (query_options this) exec_env (codegen_ this)
       (resource_pool_ this) (error_log_ this)
       (unreported_error_idx_ this) (query_status_ this)
       (query_mem_tracker_ this) (is_cancelled_ this) in
  let (status, this) :=
    if negb (disable_codegen (query_options this))
    then CreateCodegen this
    else (Status.OK, set_codegen false this) in
  (* RETURN_IF_ERROR *)
  if negb (Status.ok status) then (status, this)
  else
    let this :=
      if max_errors (query_options this) <=? 0
      then set_max_errors 100 this else this in
    let this :=
      if batch_size (query_options this) <=? 0
      then set_batch_size DEFAULT_BATCH_SIZE this else this in
    let this :=
      match exec_env with
      | Some _ =>
          mk (fragment_instance_id_ this) (query_options this)
             (exec_env_ this) (codegen_ this) true (error_log_ this)
             (unreported_error_idx_ this) (query_status_ this)
             (query_mem_tracker_ this) (is_cancelled_ this)
      | None => this
      end in
    (Status.OK, this).

(** [RuntimeState(query_id, fragment_instance_id, query_ctxt, cgroup,
    exec_env)]; the [DCHECK] on the status of [Init] is a no-op in a
    release build. *)
Definition new (fragment_instance_id : Z * Z) (opts : TQueryOptions)
           (exec_env : option ExecEnv) : t :=
  snd (Init fragment_instance_id exec_env (initial opts)).

(** [RuntimeState(query_ctxt)], the planning-side constructor. *)
Definition new_fe (opts : TQueryOptions) (exec_env : option ExecEnv) : t :=
  let s := initial opts in
  set_batch_size DEFAULT_BATCH_SIZE
    (mk (fragment_instance_id_ s) (query_options s) exec_env (codegen_ s)
        (resource_pool_ s) (error_log_ s) (unreported_error_idx_ s)
        (query_status_ s) (query_mem_tracker_ s) (is_cancelled_ s)).

(** The text [SetMemLimitExceeded] builds in [ss]; [None] when the code
    would dereference a null pointer. *)
Definition mem_limit_message (tracker : option MemTracker)
           (failed_allocation_size : Z) (this : t) : option string :=
  line ← (if failed_allocation_size =? 0 then Some EmptyString
          else (fun tr =>
                  "  " +:+ label tr +:+ " could not allocate "
                  +:+ PrettyPrinter_Print failed_allocation_size
                        TCounterType.BYTES
                  +:+ " without exceeding limit." +:+ Status.endl)
                 <$> tracker);
  env ← exec_env_ this;
  usage ← (if LimitExceeded (process_mem_tracker env)
           then Some (LogUsage (process_mem_tracker env))
           else LogUsage <$> query_mem_tracker_ this);
  Some ("Memory Limit Exceeded" +:+ Status.endl +:+ line +:+ usage).

Definition SetMemLimitExceeded (tracker : option MemTracker)
           (failed_allocation_size : Z) (this : t)
  : option (Status.t * t) :=
  if Status.ok (query_status_ this)
  then
    let this := set_query_status Status.MEM_LIMIT_EXCEEDED this in
    msg ← mem_limit_message tracker failed_allocation_size this;
    let this := snd (LogError msg this) in
    Some (query_status_ this, this)
  else Some (query_status_ this, this).

(** [CheckQueryState]; [AnyLimitExceeded] is what
    [instance_mem_tracker_->AnyLimitExceeded()] answers at the call.
    [SetMemLimitExceeded()] is called with its default arguments, a null
    tracker and size 0. *)
Definition CheckQueryState (AnyLimitExceeded : bool) (this : t)
  : option (Status.t * t) :=
  if AnyLimitExceeded then SetMemLimitExceeded None 0 this
  else Some (query_status_ this, this).

End Env.

(** Calls that touch the error log, for sequences of them. *)
Inductive call : Type :=
| CallLogError (error : string)
| CallLogError_status (status : Status.t)
| CallGetUnreportedErrors.

Definition run_call (c : call) (this : t) : t :=
  match c with
  | CallLogError error => snd (LogError error this)
  | CallLogError_status status => LogError_status status this
  | CallGetUnreportedErrors => snd (GetUnreportedErrors [] this)
  end.


(** The invariant of the error log: it holds at most [max_errors]
    entries. *)
Definition log_bounded (this : t) : Prop :=
  Z.of_nat (length (error_log_ this)) <= max_errors (query_options this).

(** A sequence of [LogError(const string&)] calls: what each returned, and
    the final state. *)
Fixpoint LogError_seq (errors : list string) (this : t) : list bool * t :=
  match errors with
  | [] => ([], this)
  | error :: rest =>
      let (r, this1) := LogError error this in
      let (rs, this2) := LogError_seq rest this1 in
      (r :: rs, this2)
  end.

(** A sequence of calls in which every [GetUnreportedErrors] is given an
    empty vector, as [ReportStatusCb] does: the errors handed out, in order,
    and the final state. *)
Fixpoint run_calls_reporting (cs : list call) (this : t)
  : list string * t :=
  match cs with
  | [] => ([], this)
  | CallGetUnreportedErrors :: rest =>
      let (new_errors, this1) := GetUnreportedErrors [] this in
      let (reported, this2) := run_calls_reporting rest this1 in
      (new_errors ++ reported, this2)
  | c :: rest => run_calls_reporting rest (run_call c this)
  end.

(** [file_errors_], a vector of (file name, number of errors) pairs, with
    [ReportFileErrors] and [FileErrors]. *)
Definition ReportFileErrors (file_name : string) (num_errors : Z)
           (file_errors_ : list (string * Z)) : list (string * Z) :=
  file_errors_ ++ [(file_name, num_errors)].

Definition FileErrors (file_errors_ : list (string * Z)) : string :=
  fold_left
    (fun out entry =>
       out +:+ pretty (snd entry) +:+ " errors in " +:+ fst entry
       +:+ Status.endl)
    file_errors_ EmptyString.

End RuntimeState.

(** ** ThriftClientImpl (thrift-client.cc) *)

Module ThriftClientImpl.

(** The client, with three counters that only record what happened: how
    often [Open] was entered, how often the transport was asked to open,
    and the time slept; and the lines logged by [OpenWithRetry]. *)
Record t : Type := mk {
  ipaddress_ : string;
  port_ : Z;
  socket_create_status_ : Status.t;
  transport_isOpen : bool;
  Open_calls : nat;
  transport_attempts : nat;
  slept_ms : Z;
  log_ : list string
}.

Definition SleepForMs (ms : Z) (c : t) : t :=
  mk (ipaddress_ c) (port_ c) (socket_create_status_ c) (transport_isOpen c)
     (Open_calls c) (transport_attempts c) (slept_ms c + ms) (log_ c).

Definition LOG (line : string) (c : t) : t :=
  mk (ipaddress_ c) (port_ c) (socket_create_status_ c) (transport_isOpen c)
     (Open_calls c) (transport_attempts c) (slept_ms c) (log_ c ++ [line]).

Definition Close (c : t) : t :=
  mk (ipaddress_ c) (port_ c) (socket_create_status_ c) false
     (Open_calls c) (transport_attempts c) (slept_ms c) (log_ c).

Section Transport.

(** The network: what the [n]-th call of [transport_->open()] does,
    [None] when it succeeds and [Some what] when it throws a
    [TTransportException]. *)
Variable transport_open : nat -> option string.

Definition Open (c : t) : Status.t * t :=
  let c :=
    mk (ipaddress_ c) (port_ c) (socket_create_status_ c)
       (transport_isOpen c) (S (Open_calls c)) (transport_attempts c)
       (slept_ms c) (log_ c) in
  if negb (Status.ok (socket_create_status_ c))
  then (socket_create_status_ c, c)
  else if transport_isOpen c then (Status.OK, c)
  else
    let c' (opened : bool) :=
      mk (ipaddress_ c) (port_ c) (socket_create_status_ c) opened
         (Open_calls c) (S (transport_attempts c)) (slept_ms c) (log_ c) in
    match transport_open (transport_attempts c) with
    | None => (Status.OK, c' true)
    | Some what =>
        (Status.of_msg
           ("Couldn't open transport for " +:+ ipaddress_ c +:+ ":"
            +:+ pretty (port_ c) +:+ "(" +:+ what +:+ ")"),
         c' false)
    end.

(** The [while (true)] loop of [OpenWithRetry]; [try_count] is a
    [uint32_t], [fuel] bounds the number of iterations. *)
Fixpoint OpenWithRetry_loop (fuel : nat) (num_tries wait_ms try_count : Z)
         (c : t) : option (Status.t * t) :=
  match fuel with
  | O => None
  | S fuel' =>
      let try_count := Int.to_uint32 (try_count + 1) in
      let (status, c) := Open c in
      if Status.ok status then Some (status, c)
      else
        let c :=
          LOG ("Unable to connect to " +:+ ipaddress_ c +:+ ":"
               +:+ pretty (port_ c)) c in
        if num_tries =? 0 then
          let c :=
            LOG ("(Attempt " +:+ pretty try_count
                 +:+ ", will retry indefinitely)") c in
          OpenWithRetry_loop fuel' num_tries wait_ms try_count
            (SleepForMs wait_ms c)
        else
          let c :=
            if negb (num_tries =? 1)
            then LOG ("(Attempt " +:+ pretty try_count +:+ " of "
                      +:+ pretty num_tries +:+ ")") c
            else c in
          if try_count =? num_tries then Some (status, c)
          else OpenWithRetry_loop fuel' num_tries wait_ms try_count
                 (SleepForMs wait_ms c)
  end.

Definition OpenWithRetry (fuel : nat) (num_tries wait_ms : Z) (c : t)
  : option (Status.t * t) :=
  OpenWithRetry_loop fuel num_tries wait_ms 0 c.

(** The status of the [i]-th (counting from 0) of consecutive [Open]
    attempts that start from [c]. *)
Fixpoint Open_nth (i : nat) (c : t) : Status.t :=
  let (status, c') := Open c in
  match i with
  | O => status
  | S j => Open_nth j c'
  end.

(** The first [n] attempts from [c] all fail. *)
Definition all_fail (n : nat) (c : t) : Prop :=
  forall j, (j < n)%nat -> Status.ok (Open_nth j c) = false.

(** The state with which the loop goes round again behaves, for [Open],
    like the one the failed attempt left. *)
Definition retry_equiv (c1 c2 : t) : Prop :=
  Open_calls c2 = Open_calls c1
  /\ forall j, Open_nth j c2 = Open_nth j c1.

(** The failed attempts among attempts 0 to [i], all before [i] having
    failed. *)
Definition failures (i : nat) (c : t) : nat :=
  if Status.ok (Open_nth i c) then i else S i.

End Transport.

(** The lines a failed attempt logs: one, and a second with the attempt
    number unless [num_tries] is 1. *)
Definition lines_per_failure (num_tries : Z) : nat :=
  if num_tries =? 1 then 1%nat else 2%nat.

End ThriftClientImpl.

(** ** RuntimeProfile: the counter map (runtime-profile.h) *)

Module RuntimeProfile.

(** [Counter(type, value = 0)] *)
Record Counter : Type := mkCounter {
  value_ : Z;
  type_ : TCounterType.type
}.

(** A [Counter*] is the index of the counter in the object pool that owns
    it. *)
Record t : Type := mk {
  name_ : string;
  pool_ : list Counter;
  counter_map_ : gmap string nat;
  child_counter_map_ : gmap string (gset string)
}.

(** Modelled from the spec: [AddCounter] is declared in
    [runtime-profile.h], its body ([runtime-profile.cc]) is missing.  "If
    the counter already exists, the existing counter object is returned";
    otherwise a counter is allocated from the pool, entered in the counter
    map under [name] and recorded as a child of [parent_counter_name]
    (the empty name for a top-level counter). *)
Definition AddCounter (name : string) (type : TCounterType.type)
           (parent_counter_name : string) (p : t) : nat * t :=
  match counter_map_ p !! name with
  | Some c => (c, p)
  | None =>
      let c := length (pool_ p) in
      let children :=
        default ∅ (child_counter_map_ p !! parent_counter_name) in
      (c, mk (name_ p) (pool_ p ++ [mkCounter 0 type])
             (<[name := c]> (counter_map_ p))
             (<[parent_counter_name := {[name]} ∪ children]>
                (child_counter_map_ p)))
  end.

(** Modelled from the spec: [GetCounter] is declared in
    [runtime-profile.h], its body is missing.  "Gets the counter object
    with 'name'.  Returns NULL if there is no counter with that name." *)
Definition GetCounter (name : string) (p : t) : option nat :=
  counter_map_ p !! name.

(** [num_counters] *)
Definition num_counters (p : t) : nat := size (counter_map_ p).

End RuntimeProfile.

(** ** Project (pythia/operators/project.cpp) *)

Module Project.

Inductive exception : Set :=
| InvalidParameter
| IllegalSchemaDeclarationException.

(** [s.find('$')] followed by [s.substr(l+1)]: what follows the first
    dollar sign, if there is one. *)
Fixpoint after_dollar (s : string) : option string :=
  match s with
  | EmptyString => None
  | String c rest =>
      if Ascii.eqb c "$"%char then Some rest else after_dollar rest
  end.

(** [std::isspace] in the "C" locale. *)
Definition isspace (c : ascii) : bool :=
  let n := nat_of_ascii c in
  (n =? 32)%nat || ((9 <=? n)%nat && (n <=? 13)%nat).

Definition digit (c : ascii) : option Z :=
  let n := nat_of_ascii c in
  if ((48 <=? n)%nat && (n <=? 57)%nat) then Some (Z.of_nat n - 48)
  else None.

Fixpoint skipws (s : string) : string :=
  match s with
  | String c rest => if isspace c then skipws rest else s
  | EmptyString => s
  end.

(** The value of the longest prefix of decimal digits, [acc] being the
    value read so far; [None] when no digit has been read. *)
Fixpoint digits (s : string) (acc : option Z) : option Z :=
  match s with
  | String c rest =>
      match digit c with
      | Some d => digits rest (Some (10 * default 0 acc + d))
      | None => acc
      end
  | EmptyString => acc
  end.

(** [ss >> ret] for an [int]: skip white space, an optional sign, then
    decimal digits.  [None] when the stream ends up failed: no digit, or a
    value that does not fit an [int]. *)
Definition extract_int (s : string) : option Z :=
  let s := skipws s in
  let (negative, s) :=
    match s with
    | String "-"%char rest => (true, rest)
    | String "+"%char rest => (false, rest)
    | _ => (false, s)
    end in
  match digits s None with
  | None => None
  | Some v =>
      let v := if negative then - v else v in
      if (Int.INT_MIN <=? v) && (v <=? Int.INT_MAX) then Some v else None
  end.

Definition parseInput (s : string) : Z :=
  match after_dollar s with
  | None => -1
  | Some remainder =>
      match extract_int remainder with
      | Some ret => ret
      | None => -1
      end
  end.

(** A schema is the list of its column specifications; a tuple of it the
    list of its column values. *)
Definition columns {A} (schema : list A) : Z := Z.of_nat (length schema).

(** The loop of [Project::init] over the entries of [cfg["projection"]].
    The result is [projlist] as the loop leaves it and the exception
    thrown, if any. *)
Fixpoint init (node : list string) (srcschema_columns : Z)
         (projlist : list Z) : list Z * option exception :=
  match node with
  | [] => (projlist, None)
  | projattrstr :: rest =>
      let projattr := parseInput projattrstr in
      if projattr <=? -1 then (projlist, Some InvalidParameter)
      else if Int.to_uint32 projattr >=? srcschema_columns
           then (projlist, Some IllegalSchemaDeclarationException)
           else init rest srcschema_columns (projlist ++ [projattr])
  end.

(** An entry [init] accepts: it parses to an index of the source schema. *)
Definition accepted (cols : Z) (entry : string) : Prop :=
  0 <= parseInput entry < cols.

(** Column [pos] of a schema or of a tuple; [None] outside of it. *)
Definition column {A} (l : list A) (pos : Z) : option A :=
  if pos <? 0 then None else l !! Z.to_nat pos.

(** [Project::mapinit]: the output schema. *)
Definition mapinit {A} (srcschema : list A) (projlist : list Z)
  : option (list A) :=
  mapM (column srcschema) projlist.

(** [Project::map]: the output tuple, column [i] of which is column
    [projlist[i]] of the input tuple. *)
Definition map {V} (tuple : list V) (projlist : list Z) : option (list V) :=
  mapM (column tuple) projlist.

(** A string that does not start with a decimal digit. *)
Definition no_digit_ahead (s : string) : Prop :=
  match s with
  | EmptyString => True
  | String c _ => digit c = None
  end.

(** A string without a dollar sign. *)
Definition dollar_free (s : string) : Prop :=
  forall c, In c (list_ascii_of_string s) -> c <> "$"%char.

(** Text at the head of which there is no integer to read: after white
    space, if any, comes the end of the text, or a sign that no digit
    follows, or a character that is neither a sign nor a digit. *)
Inductive no_integer_ahead : string -> Prop :=
| no_integer_end : no_integer_ahead EmptyString
| no_integer_space (c : ascii) (s : string) :
    isspace c = true -> no_integer_ahead s -> no_integer_ahead (String c s)
| no_integer_sign (c : ascii) (s : string) :
    c = "-"%char \/ c = "+"%char -> no_digit_ahead s ->
    no_integer_ahead (String c s)
| no_integer_other (c : ascii) (s : string) :
    isspace c = false -> c <> "-"%char -> c <> "+"%char -> digit c = None ->
    no_integer_ahead (String c s).

(** The entries that are not a dollar sign followed by an [int]: there is
    no dollar sign; or no integer follows the first dollar sign; or the
    integer that follows it, written in decimal, does not fit an [int]. *)
Inductive unparsable : string -> Prop :=
| unparsable_no_dollar (s : string) :
    dollar_free s -> unparsable s
| unparsable_no_integer (pre t : string) :
    dollar_free pre -> no_integer_ahead t ->
    unparsable (pre +:+ String "$"%char t)
| unparsable_out_of_range (pre post : string) (z : Z) :
    dollar_free pre -> ~ (Int.INT_MIN <= z <= Int.INT_MAX) ->
    no_digit_ahead post ->
    unparsable (pre +:+ String "$"%char (pretty z +:+ post)).

End Project.

(** ** Counter, ScopedCounter and EventSequence (runtime-profile.h) *)

Module Counter.

(** The plain counter is [RuntimeProfile.Counter]; its value is an
    [AtomicInt<int64_t>]. *)
Definition t : Type := RuntimeProfile.Counter.

(** [value_ += delta] *)
Definition Update (delta : Z) (c : t) : t :=
  RuntimeProfile.mkCounter
    (Int.wrap64 (RuntimeProfile.value_ c + delta)) (RuntimeProfile.type_ c).

(** [value_ |= delta] *)
Definition BitOr (delta : Z) (c : t) : t :=
  RuntimeProfile.mkCounter
    (Z.lor (RuntimeProfile.value_ c) delta) (RuntimeProfile.type_ c).

(** [Set(int64_t value)] *)
Definition Set_ (value : Z) (c : t) : t :=
  RuntimeProfile.mkCounter value (RuntimeProfile.type_ c).

Definition value (c : t) : Z := RuntimeProfile.value_ c.

Definition Update_seq (deltas : list Z) (c : t) : t :=
  fold_left (fun c d => Update d c) deltas c.

End Counter.

Module AnyCounter.

(** What a [Counter*] can point to: a plain [Counter]; a
    [HighWaterMarkCounter], which overrides [Update]; or a [DerivedCounter],
    which inherits [Update] and overrides [value()] by a call of its
    [counter_fn_], here a function of nothing that stands for the closure. *)
Inductive t : Type :=
| Plain (c : Counter.t)
| HighWaterMark (c : HighWaterMarkCounter.t)
| Derived (c : Counter.t) (counter_fn_ : unit -> Z).

(** The virtual call [counter->Update(delta)]. *)
Definition Update (delta : Z) (c : t) : t :=
  match c with
  | Plain p => Plain (Counter.Update delta p)
  | HighWaterMark h => HighWaterMark (HighWaterMarkCounter.Update delta h)
  | Derived p counter_fn_ => Derived (Counter.Update delta p) counter_fn_
  end.

(** The virtual call [counter->value()]. *)
Definition value (c : t) : Z :=
  match c with
  | Plain p => Counter.value p
  | HighWaterMark h => HighWaterMarkCounter.value h
  | Derived _ counter_fn_ => counter_fn_ tt
  end.

Definition Update_seq (deltas : list Z) (c : t) : t :=
  fold_left (fun c d => Update d c) deltas c.

End AnyCounter.

Module ScopedCounter.

(** The constructor and the destructor, as they act on the counter pointed
    to ([None] for a null pointer) through the virtual [Update].
    [-1L * val_] is computed in [int64_t]. *)
Definition construct (val : Z) (counter : option AnyCounter.t)
  : option AnyCounter.t :=
  match counter with
  | None => None
  | Some c => Some (AnyCounter.Update (Int.wrap64 (-1 * val)) c)
  end.

Definition destruct_ (val : Z) (counter : option AnyCounter.t)
  : option AnyCounter.t :=
  match counter with
  | Some c => Some (AnyCounter.Update val c)
  | None => None
  end.

End ScopedCounter.

Module EventSequence.

(** [events_]: (label, timestamp) pairs. *)
Definition EventList : Type := list (string * Z).

(** The loop of the constructor from Thrift, from index [i] on: one event
    per timestamp, labelled [labels[i]]; [None] when [labels] is too short
    and the code reads past its end. *)
Fixpoint from_thrift (timestamps : list Z) (labels : list string) (i : nat)
         (events_ : EventList) : option EventList :=
  match timestamps with
  | [] => Some events_
  | ts :: rest =>
      match labels !! i with
      | Some label => from_thrift rest labels (S i) (events_ ++ [(label, ts)])
      | None => None
      end
  end.

Definition new_from_thrift (timestamps : list Z) (labels : list string)
  : option EventList :=
  from_thrift timestamps labels 0 [].

(** [MarkEvent(label)]; [elapsed] is what [sw_.ElapsedTime()] reads. *)
Definition MarkEvent (label : string) (elapsed : Z) (events_ : EventList)
  : EventList :=
  events_ ++ [(label, elapsed)].

(** A run of [MarkEvent] calls with the clock readings taken. *)
Definition MarkEvents (marks : list (string * Z)) (events_ : EventList)
  : EventList :=
  fold_left (fun ev m => MarkEvent (fst m) (snd m) ev) marks events_.

End EventSequence.

(** ** ReportStatusCb (fragment-exec-state.cc) *)

Module ReportStatus.

(** [TInsertExecStatus]: a field is set only from a non-empty collection. *)
Record TInsertExecStatus : Type := mkInsert {
  files_to_move : option (list (string * string));
  num_appended_rows : option (list (string * Z));
  insert_stats : option (list (string * Z))
}.

(** [TReportExecStatusParams], without the ids and the profile tree, which
    the callback copies into it unchanged. *)
Record TReportExecStatusParams : Type := mkParams {
  backend_num : Z;
  status : Status.t;
  done : bool;
  insert_exec_status : option TInsertExecStatus;
  error_log : list string;
  isset_error_log : bool
}.

(** What a call of [coord->ReportExecStatus] does. *)
Inductive rpc_outcome : Type :=
| Returns (res_status : Status.t)
| ThrowsTTransportException (what : string)
| ThrowsTException (what : string).

(** The coordinator side during one callback: the status of getting a
    client from the cache, the outcome of the first call, the status of
    [Reopen] and the outcome of the second call. *)
Record Coordinator : Type := mkCoordinator {
  client_status : Status.t;
  first_call : rpc_outcome;
  reopen_status : Status.t;
  second_call : rpc_outcome
}.

(** The fragment: its status and executor, the runtime state of the
    executor with the insert bookkeeping read here, and the requests handed
    to the RPC stub so far. *)
Record t : Type := mk {
  exec_state : FragmentExecState.t;
  runtime_state : RuntimeState.t;
  hdfs_files_to_move : list (string * string);
  rows_appended : list (string * Z);
  stats_inserted : list (string * Z);
  coord_hostport_ : string;
  backend_num_ : Z;
  sent : list TReportExecStatusParams
}.

Definition with_exec_state (e : FragmentExecState.t) (this : t) : t :=
  mk e (runtime_state this) (hdfs_files_to_move this) (rows_appended this)
     (stats_inserted this) (coord_hostport_ this) (backend_num_ this)
     (sent this).

Definition with_runtime_state (r : RuntimeState.t) (this : t) : t :=
  mk (exec_state this) r (hdfs_files_to_move this) (rows_appended this)
     (stats_inserted this) (coord_hostport_ this) (backend_num_ this)
     (sent this).

(** One call of [coord->ReportExecStatus(res, params)] is recorded. *)
Definition send (params : TReportExecStatusParams) (this : t) : t :=
  mk (exec_state this) (runtime_state this) (hdfs_files_to_move this)
     (rows_appended this) (stats_inserted this) (coord_hostport_ this)
     (backend_num_ this) (sent this ++ [params]).

Definition UpdateStatus (status : Status.t) (this : t) : Status.t * t :=
  let (r, e) := FragmentExecState.UpdateStatus status (exec_state this) in
  (r, with_exec_state e this).

(** [executor_.Cancel()] *)
Definition executor_Cancel (this : t) : t :=
  with_exec_state
    (FragmentExecState.mk
       (FragmentExecState.exec_status_ (exec_state this)) true) this.

Definition nonempty {A} (l : list A) : option (list A) :=
  match l with
  | [] => None
  | _ :: _ => Some l
  end.

(** The request the callback builds; it also moves the watermark of the
    error log. *)
Definition build_params (exec_status : Status.t) (done : bool) (this : t)
  : TReportExecStatusParams * t :=
  let insert_status :=
    if done
    then Some (mkInsert (nonempty (hdfs_files_to_move this))
                        (nonempty (rows_appended this))
                        (nonempty (stats_inserted this)))
    else None in
  let (new_errors, rs) :=
    RuntimeState.GetUnreportedErrors [] (runtime_state this) in
  (mkParams (backend_num_ this) exec_status done insert_status new_errors
            (Z.of_nat (length new_errors) >? 0),
   with_runtime_state rs this).

Definition internal_error (msg : string) : Status.t :=
  Status.mk TStatusCode.INTERNAL_ERROR [msg].

(** The two nested [try] blocks: the status the RPC ends with, or [None]
    when the callback has returned from inside the handler. *)
Definition report (net : Coordinator) (params : TReportExecStatusParams)
           (this : t) : option Status.t * t :=
  let failed (what : string) : Status.t :=
    internal_error ("ReportExecStatus() to " +:+ coord_hostport_ this
                    +:+ " failed:" +:+ Status.endl +:+ what) in
  let this := send params this in
  match first_call net with
  | Returns res_status => (Some res_status, this)
  | ThrowsTException what => (Some (failed what), this)
  | ThrowsTTransportException _ =>
      if negb (Status.ok (reopen_status net))
      then
        let (_, this) := UpdateStatus (reopen_status net) this in
        (None, executor_Cancel this)
      else
        let this := send params this in
        match second_call net with
        | Returns res_status => (Some res_status, this)
        | ThrowsTTransportException what => (Some (failed what), this)
        | ThrowsTException what => (Some (failed what), this)
        end
  end.

Definition ReportStatusCb (net : Coordinator) (status : Status.t)
           (done : bool) (this : t) : t :=
  let (exec_status, this) := UpdateStatus status this in
  if negb (Status.ok (client_status net))
  then
    snd (UpdateStatus
           (internal_error
              ("couldn't get a client for " +:+ coord_hostport_ this))
           this)
  else
    let (params, this) := build_params exec_status done this in
    match report net params this with
    | (None, this) => this
    | (Some rpc_status, this) =>
        if negb (Status.ok rpc_status)
        then executor_Cancel (snd (UpdateStatus rpc_status this))
        else this
    end.

(** Whether the coordinator ends up with the report and answers OK. *)
Definition delivered (net : Coordinator) : bool :=
  match first_call net with
  | Returns res_status => Status.ok res_status
  | ThrowsTException _ => false
  | ThrowsTTransportException _ =>
      Status.ok (reopen_status net)
      && match second_call net with
         | Returns res_status => Status.ok res_status
         | _ => false
         end
  end.

(** Whether the callback calls the RPC stub a second time. *)
Definition retried (net : Coordinator) : bool :=
  match first_call net with
  | ThrowsTTransportException _ => Status.ok (reopen_status net)
  | _ => false
  end.

(** The request of a callback: the fragment's status after
    [UpdateStatus(status)] and the part of the log not yet reported. *)
Definition request (status : Status.t) (done : bool) (this : t)
  : TReportExecStatusParams :=
  fst (build_params
         (fst (FragmentExecState.UpdateStatus status (exec_state this)))
         done
         (with_exec_state
            (snd (FragmentExecState.UpdateStatus status (exec_state this)))
            this)).

End ReportStatus.


(** * Part II: the properties *)

(** ** Machine integers *)

Lemma wrap64_in_range (z : Z) : Int.in_int64 z -> Int.wrap64 z = z.
Proof.
  unfold Int.in_int64, Int.wrap64. intros Hz.
  rewrite Z.mod_small; lia.
Qed.

Lemma to_size_t_nonneg (z : Z) : 0 <= z < 2 ^ 64 -> Int.to_size_t z = z.
Proof. intros Hz. unfold Int.to_size_t. now apply Z.mod_small. Qed.

Lemma to_uint32_nonneg (z : Z) : 0 <= z < 2 ^ 32 -> Int.to_uint32 z = z.
Proof. intros Hz. unfold Int.to_uint32. now apply Z.mod_small. Qed.

(** ** FragmentExecState: the first error sticks *)

Section FragmentExecStateFacts.

Import FragmentExecState.

Lemma UpdateStatus_returns_exec_status (status : Status.t) (this : t) :
  fst (UpdateStatus status this) = exec_status_ (snd (UpdateStatus status this)).
Proof. reflexivity. Qed.

Lemma UpdateStatus_of_ok (status : Status.t) (this : t) :
  Status.ok status = true -> UpdateStatus status this = (exec_status_ this, this).
Proof. intros H. unfold UpdateStatus. now rewrite H. Qed.

Lemma UpdateStatus_after_error (status : Status.t) (this : t) :
  Status.ok (exec_status_ this) = false ->
  UpdateStatus status this = (exec_status_ this, this).
Proof.
  intros H. unfold UpdateStatus. rewrite H.
  now rewrite andb_false_r.
Qed.

Lemma UpdateStatus_first_error (err : Status.t) (this : t) :
  Status.ok (exec_status_ this) = true -> Status.ok err = false ->
  UpdateStatus err this = (err, set_exec_status err this).
Proof. intros Hok Herr. unfold UpdateStatus. now rewrite Hok, Herr. Qed.

Lemma UpdateStatus_seq_app (xs ys : list Status.t) (this : t) :
  UpdateStatus_seq (xs ++ ys) this =
  (fst (UpdateStatus_seq xs this)
     ++ fst (UpdateStatus_seq ys (snd (UpdateStatus_seq xs this))),
   snd (UpdateStatus_seq ys (snd (UpdateStatus_seq xs this)))).
Proof.
  revert this. induction xs as [|x xs IH]; intros this; cbn [app UpdateStatus_seq].
  - cbn [fst snd app]. now destruct (UpdateStatus_seq ys this).
  - destruct (UpdateStatus x this) as [r this1]. rewrite IH.
    destruct (UpdateStatus_seq xs this1) as [rs this2]. cbn [fst snd].
    now destruct (UpdateStatus_seq ys this2).
Qed.

Lemma UpdateStatus_seq_of_ok (calls : list Status.t) (this : t) :
  Forall (fun s => Status.ok s = true) calls ->
  UpdateStatus_seq calls this =
  (replicate (length calls) (exec_status_ this), this).
Proof.
  induction 1 as [|s calls Hs _ IH]; [reflexivity|].
  cbn [UpdateStatus_seq]. rewrite (UpdateStatus_of_ok _ _ Hs), IH.
  reflexivity.
Qed.

Lemma UpdateStatus_seq_after_error (calls : list Status.t) (this : t) :
  Status.ok (exec_status_ this) = false ->
  UpdateStatus_seq calls this =
  (replicate (length calls) (exec_status_ this), this).
Proof.
  intros Herr. induction calls as [|s calls IH]; [reflexivity|].
  cbn [UpdateStatus_seq]. rewrite (UpdateStatus_after_error _ _ Herr), IH.
  reflexivity.
Qed.

(** C1.  Start from a state whose [exec_status_] is still OK (as a new one
    is) and let [UpdateStatus] be called with the statuses [pre], all OK,
    then with the non-OK status [err], then with any statuses [post].  The
    calls before the error return the OK status, the call with [err] and
    every later call return [err], and the state ends with [exec_status_]
    equal to [err]: the first non-OK argument is recorded and nothing that
    follows, OK or another error, replaces it.  Every call returns the
    [exec_status_] it leaves behind, and [exec_status_.ok()] stays false. *)
Theorem UpdateStatus_first_error_sticks
  (this : t) (pre post : list Status.t) (err : Status.t) :
  Status.ok (exec_status_ this) = true ->
  Forall (fun s => Status.ok s = true) pre ->
  Status.ok err = false ->
  UpdateStatus_seq (pre ++ err :: post) this =
    (replicate (length pre) (exec_status_ this)
       ++ err :: replicate (length post) err,
     set_exec_status err this)
  /\ exec_status_ (snd (UpdateStatus_seq (pre ++ err :: post) this)) = err
  /\ Status.ok
       (exec_status_ (snd (UpdateStatus_seq (pre ++ err :: post) this)))
     = false
  /\ (forall later : Status.t,
        UpdateStatus later (set_exec_status err this)
        = (err, set_exec_status err this))
  /\ (forall (status : Status.t) (s : t),
        fst (UpdateStatus status s)
        = exec_status_ (snd (UpdateStatus status s))).
Proof.
  intros Hok Hpre Herr.
  assert (Hseq : UpdateStatus_seq (pre ++ err :: post) this =
                 (replicate (length pre) (exec_status_ this)
                    ++ err :: replicate (length post) err,
                  set_exec_status err this)).
  { rewrite UpdateStatus_seq_app, (UpdateStatus_seq_of_ok _ _ Hpre).
    cbn [fst snd UpdateStatus_seq].
    rewrite (UpdateStatus_first_error _ _ Hok Herr).
    rewrite UpdateStatus_seq_after_error by exact Herr.
    reflexivity. }
  rewrite Hseq. cbn [snd].
  repeat split; try assumption.
  intros later. now rewrite UpdateStatus_after_error.
Qed.

Lemma UpdateStatus_first_error_sticks_witness :
  let cancelled := Status.mk TStatusCode.CANCELLED ["Cancelled"%string] in
  let internal := Status.of_msg "rpc failed" in
  Status.ok (exec_status_ new) = true
  /\ exec_status_
       (snd (UpdateStatus_seq
               ([Status.OK] ++ cancelled :: [Status.OK; internal]) new))
     = cancelled.
Proof.
  intros cancelled internal. split; [reflexivity|].
  apply (UpdateStatus_first_error_sticks
           new [Status.OK] [Status.OK; internal] cancelled).
  - reflexivity.
  - repeat constructor.
  - reflexivity.
Defined.

End FragmentExecStateFacts.

(** ** HighWaterMarkCounter *)

Section HighWaterMarkCounterFacts.

Import HighWaterMarkCounter.

Lemma Update_current (delta : Z) (c : t) :
  current_value (Update delta c) = Int.wrap64 (current_value c + delta).
Proof. reflexivity. Qed.

Lemma Update_value (delta : Z) (c : t) :
  value (Update delta c)
  = Z.max (value c) (current_value (Update delta c)).
Proof. reflexivity. Qed.

(** As long as the current value stays within [int64_t], a run of updates
    leaves the sum in [current_value] and the peak in [value]. *)
Lemma Update_seq_running_peak (deltas : list Z) (c : t) :
  no_overflow (current_value c) deltas ->
  current_value (Update_seq deltas c) = running (current_value c) deltas
  /\ value (Update_seq deltas c) = peak (value c) (current_value c) deltas.
Proof.
  revert c. induction deltas as [|d ds IH]; intros c Hno; [now split|].
  destruct Hno as [Hd Hds]. cbn [Update_seq fold_left running peak].
  assert (Hcur : current_value (Update d c) = current_value c + d).
  { rewrite Update_current. now apply wrap64_in_range. }
  specialize (IH (Update d c)). rewrite Hcur in IH.
  destruct (IH Hds) as [IH1 IH2]. unfold Update_seq in IH1, IH2.
  rewrite IH1, IH2. rewrite Update_value, Hcur. now split.
Qed.

Lemma peak_ge (deltas : list Z) (hwm cur : Z) : hwm <= peak hwm cur deltas.
Proof.
  revert hwm cur. induction deltas as [|d ds IH]; intros hwm cur; cbn [peak].
  - lia.
  - specialize (IH (Z.max hwm (cur + d)) (cur + d)). lia.
Qed.

(** C4.  [Update(delta)] adds [delta] to the current value and raises
    [value()] to the maximum of its old value and the new current value
    (the sum being within [int64_t], as it is for a new counter, whose
    current value is 0); and on a new counter the updates +3, +2, -4, +1 end
    with [current_value() = 2] and [value() = 5]. *)
Theorem HighWaterMarkCounter_Update_spec
  (type : TCounterType.type) (c : t) (delta : Z) :
  Int.in_int64 delta ->
  Int.in_int64 (current_value c + delta) ->
  (current_value (Update delta c) = current_value c + delta
   /\ value (Update delta c) = Z.max (value c) (current_value c + delta))
  /\ (current_value (Update delta (new type)) = delta
      /\ value (Update delta (new type)) = Z.max 0 delta)
  /\ (current_value (Update_seq [3; 2; -4; 1] (new type)) = 2
      /\ value (Update_seq [3; 2; -4; 1] (new type)) = 5).
Proof.
  intros Hdelta Hrange.
  assert (Hcur : current_value (Update delta c) = current_value c + delta).
  { rewrite Update_current. now apply wrap64_in_range. }
  assert (Hnew : current_value (Update delta (new type)) = delta).
  { rewrite Update_current. cbn [new current_value current_value_].
    rewrite Z.add_0_l. now apply wrap64_in_range. }
  repeat split.
  - exact Hcur.
  - now rewrite Update_value, Hcur.
  - exact Hnew.
  - now rewrite Update_value, Hnew.
Qed.

Lemma HighWaterMarkCounter_Update_spec_witness :
  let c := Update_seq [3; 2] (new TCounterType.BYTES) in
  Int.in_int64 (-4)
  /\ current_value (Update (-4) c) = 1
  /\ value (Update (-4) c) = 5.
Proof.
  intros c.
  assert (H1 : Int.in_int64 (-4)) by (unfold Int.in_int64; lia).
  assert (H2 : Int.in_int64 (current_value c + -4))
    by (vm_compute; split; [discriminate | reflexivity]).
  destruct (HighWaterMarkCounter_Update_spec TCounterType.BYTES c (-4) H1 H2)
    as [[Hc Hv] _].
  split; [exact H1|]. split; [exact Hc | exact Hv].
Defined.

(** C5.  With [c] the current value and [c + delta] within [int64_t]:
    when [c + delta > max], [TryUpdate] returns false and leaves the counter
    as it is; otherwise it returns true, the current value is [c + delta] and
    the peak is the larger of the old peak and [c + delta], hence at least
    [c + delta].  The first compare-and-swap succeeds, so any positive fuel
    is enough. *)
Theorem TryUpdate_spec (fuel : nat) (c : t) (delta max : Z) :
  Int.in_int64 (current_value c + delta) ->
  (current_value c + delta > max ->
   TryUpdate_loop (S fuel) delta max c = Some (false, c))
  /\ (current_value c + delta <= max ->
      exists c',
        TryUpdate_loop (S fuel) delta max c = Some (true, c')
        /\ current_value c' = current_value c + delta
        /\ value c' = Z.max (value c) (current_value c + delta)
        /\ value c' >= current_value c + delta).
Proof.
  intros Hrange. unfold current_value in *.
  cbn [TryUpdate_loop]. rewrite (wrap64_in_range _ Hrange).
  unfold AtomicInt.Swap. rewrite Z.eqb_refl.
  split; intros Hcmp.
  - destruct (Z.gtb_spec (current_value_ c + delta) max); [reflexivity | lia].
  - destruct (Z.gtb_spec (current_value_ c + delta) max); [lia|].
    eexists. split; [reflexivity|].
    cbn [current_value_ value value_]. unfold AtomicInt.UpdateMax.
    repeat split; lia.
Qed.

Lemma TryUpdate_spec_witness :
  let c := Update_seq [3; 2; -4] (new TCounterType.BYTES) in
  TryUpdate_loop 1 7 6 c = Some (false, c)
  /\ exists c', TryUpdate_loop 1 7 8 c = Some (true, c')
                /\ current_value c' = 8 /\ value c' = 8.
Proof.
  intros c.
  assert (H : Int.in_int64 (current_value c + 7))
    by (vm_compute; split; [discriminate | reflexivity]).
  destruct (TryUpdate_spec 0 c 7 6 H) as [Hfalse _].
  destruct (TryUpdate_spec 0 c 7 8 H) as [_ Htrue].
  split.
  - apply Hfalse. vm_compute. reflexivity.
  - destruct Htrue as (c' & Hrun & Hcur & Hval & _).
    + vm_compute. discriminate.
    + exists c'. split; [exact Hrun|]. split; [exact Hcur | exact Hval].
Defined.

End HighWaterMarkCounterFacts.

(** ** RuntimeState *)

Section RuntimeStateFacts.

Import RuntimeState.

Lemma string_append_assoc (a b c : string) :
  (a +:+ b) +:+ c = a +:+ (b +:+ c).
Proof.
  induction a as [|x a IH]; [reflexivity|].
  change (String x ((a +:+ b) +:+ c) = String x (a +:+ (b +:+ c))).
  now rewrite IH.
Qed.

(** *** The error log *)

Lemma LogError_max_errors (error : string) (this : t) :
  query_options (snd (LogError error this)) = query_options this.
Proof. unfold LogError. now destruct (_ <? _). Qed.


Lemma LogError_full (error : string) (this : t) :
  0 <= max_errors (query_options this)
       <= Z.of_nat (length (error_log_ this)) ->
  LogError error this = (false, this).
Proof.
  intros [Hmax Hfull]. unfold LogError, Int.to_size_t.
  assert (max_errors (query_options this) mod 2 ^ 64
          <= max_errors (query_options this))
    by (apply Z.mod_le; lia).
  destruct (Z.ltb_spec (Z.of_nat (length (error_log_ this)))
              (max_errors (query_options this) mod 2 ^ 64));
    [lia | reflexivity].
Qed.


Lemma GetUnreportedErrors_log (v : list string) (this : t) :
  error_log_ (snd (GetUnreportedErrors v this)) = error_log_ this
  /\ query_options (snd (GetUnreportedErrors v this)) = query_options this.
Proof. unfold GetUnreportedErrors. now destruct (_ <? _)%nat. Qed.



(** The watermark is at the end of the log after a call. *)
Lemma GetUnreportedErrors_watermark (v : list string) (this : t) :
  (length (error_log_ (snd (GetUnreportedErrors v this)))
   <= unreported_error_idx_ (snd (GetUnreportedErrors v this)))%nat.
Proof.
  unfold GetUnreportedErrors.
  destruct (Nat.ltb_spec (unreported_error_idx_ this)
              (length (error_log_ this))); cbn; lia.
Qed.

Lemma GetUnreportedErrors_nothing_new (v : list string) (this : t) :
  (length (error_log_ this) <= unreported_error_idx_ this)%nat ->
  GetUnreportedErrors v this = (v, this).
Proof.
  intros H. unfold GetUnreportedErrors.
  destruct (Nat.ltb_spec (unreported_error_idx_ this)
              (length (error_log_ this))); [lia | reflexivity].
Qed.

Lemma GetUnreportedErrors_fresh (this : t) :
  fst (GetUnreportedErrors [] this)
  = drop (unreported_error_idx_ this) (error_log_ this).
Proof.
  unfold GetUnreportedErrors.
  destruct (Nat.ltb_spec (unreported_error_idx_ this)
              (length (error_log_ this))) as [Hlt|Hge]; cbn [fst].
  - reflexivity.
  - symmetry. now apply drop_ge.
Qed.

(** A state set up by a successful [Init] starts within the bound. *)
Lemma Init_log_bounded (D : Z) (ir : Status.t) (id : Z * Z)
      (env : option ExecEnv) (opts : TQueryOptions) :
  Status.ok (fst (Init D ir id env (initial opts))) = true ->
  log_bounded (new D ir id opts env).
Proof.
  unfold new, Init, CreateCodegen, log_bounded.
  cbn [initial query_options codegen_].
  destruct (disable_codegen opts); cbn [negb];
    [|destruct (Status.ok ir) eqn:Hir];
    cbn [Status.ok Status.OK Status.code negb fst snd];
    try (rewrite Hir; cbn [negb fst]; congruence);
    intros _;
    unfold set_codegen, set_max_errors, set_batch_size, set_options;
    cbn [query_options max_errors batch_size error_log_ disable_codegen];
    destruct (Z.leb_spec (max_errors opts) 0);
    cbn [query_options max_errors batch_size error_log_ disable_codegen];
    destruct (Z.leb_spec (batch_size opts) 0);
    cbn [query_options max_errors batch_size error_log_ disable_codegen];
    destruct env; cbn; lia.
Qed.



(** C6.  [ErrorLogIsEmpty] returns true exactly when the log holds an
    entry: on the empty log of a new state it returns false, on a log with
    an entry true. *)
Theorem ErrorLogIsEmpty_tells_nonempty :
  (forall this : t,
     ErrorLogIsEmpty this
     = match error_log_ this with [] => false | _ :: _ => true end)
  /\ (forall opts : TQueryOptions, ErrorLogIsEmpty (initial opts) = false)
  /\ (forall opts : TQueryOptions,
        ErrorLogIsEmpty (set_error_log ["e"%string] (initial opts)) = true).
Proof.
  split; [|split; reflexivity].
  intros this. unfold ErrorLogIsEmpty.
  destruct (error_log_ this) as [|e l]; [reflexivity|].
  cbn [length]. destruct (Z.gtb_spec (Z.of_nat (S (length l))) 0);
    [reflexivity | lia].
Qed.


End RuntimeStateFacts.

(** *** Init and the query options *)

Section RuntimeStateInitFacts.

Import RuntimeState.

Variable DEFAULT_BATCH_SIZE : Z.
Variable LoadImpalaIR : Status.t.

Lemma CreateCodegen_options (this : t) :
  query_options (snd (CreateCodegen LoadImpalaIR this)) = query_options this.
Proof.
  unfold CreateCodegen.
  destruct (codegen_ this); [reflexivity|].
  now destruct (Status.ok LoadImpalaIR).
Qed.

(** [Init] fails exactly when code generation is wanted, no code generator
    exists yet and the IR cannot be loaded. *)
Lemma Init_status (id : Z * Z) (env : option ExecEnv) (this : t) :
  Status.ok (fst (Init DEFAULT_BATCH_SIZE LoadImpalaIR id env this))
  = disable_codegen (query_options this) || codegen_ this
    || Status.ok LoadImpalaIR.
Proof.
  unfold Init, CreateCodegen. cbn [query_options codegen_].
  destruct (disable_codegen (query_options this)); cbn [negb orb].
  - reflexivity.
  - destruct (codegen_ this); cbn [orb]; [reflexivity|].
    destruct (Status.ok LoadImpalaIR) eqn:Hir; cbn [negb fst Status.ok];
      [reflexivity|].
    now rewrite Hir.
Qed.

(** C8, as the code has it.  When [Init] returns OK: a non-positive incoming
    [max_errors] (0 included) has become 100, a non-positive incoming
    [batch_size] has become [DEFAULT_BATCH_SIZE], and positive incoming
    values of either option are unchanged. *)
Theorem Init_clamps_options
  (id : Z * Z) (env : option ExecEnv) (this this' : t) (status : Status.t) :
  Init DEFAULT_BATCH_SIZE LoadImpalaIR id env this = (status, this') ->
  Status.ok status = true ->
  (max_errors (query_options this) <= 0 ->
   max_errors (query_options this') = 100)
  /\ (0 < max_errors (query_options this) ->
      max_errors (query_options this') = max_errors (query_options this))
  /\ (batch_size (query_options this) <= 0 ->
      batch_size (query_options this') = DEFAULT_BATCH_SIZE)
  /\ (0 < batch_size (query_options this) ->
      batch_size (query_options this') = batch_size (query_options this)).
Proof.
  unfold Init.
  set (this0 := mk id (query_options this) env (codegen_ this)
                   (resource_pool_ this) (error_log_ this)
                   (unreported_error_idx_ this) (query_status_ this)
                   (query_mem_tracker_ this) (is_cancelled_ this)).
  assert (Hopts : forall st s,
            (if negb (disable_codegen (query_options this0))
             then CreateCodegen LoadImpalaIR this0
             else (Status.OK, set_codegen false this0)) = (st, s) ->
            query_options s = query_options this).
  { intros st s. destruct (disable_codegen (query_options this0)); cbn [negb].
    - intros [= <- <-]. reflexivity.
    - intros E. pose proof (CreateCodegen_options this0) as H.
      rewrite E in H. exact H. }
  destruct (if negb (disable_codegen (query_options this0))
            then CreateCodegen LoadImpalaIR this0
            else (Status.OK, set_codegen false this0)) as [st s] eqn:E.
  specialize (Hopts st s eq_refl).
  destruct (Status.ok st) eqn:Hst; cbn [negb].
  2:{ intros [= <- <-] Hok. congruence. }
  intros [= <- <-] _.
  assert (Hq : forall s0 : t,
            query_options
              match env with
              | Some _ =>
                  mk (fragment_instance_id_ s0) (query_options s0)
                     (exec_env_ s0) (codegen_ s0) true (error_log_ s0)
                     (unreported_error_idx_ s0) (query_status_ s0)
                     (query_mem_tracker_ s0) (is_cancelled_ s0)
              | None => s0
              end = query_options s0)
    by (intros s0; now destruct env).
  rewrite Hq.
  unfold set_max_errors, set_batch_size, set_options.
  destruct (Z.leb_spec (max_errors (query_options s)) 0);
    cbn [query_options max_errors batch_size];
    destruct (Z.leb_spec (batch_size (query_options s)) 0);
    cbn [query_options max_errors batch_size];
    rewrite Hopts in *; repeat split; intros; lia.
Qed.

End RuntimeStateInitFacts.

Section RuntimeStateInitExamples.

Import RuntimeState.

Lemma Init_clamps_options_witness :
  let this := initial (mkOptions true 0 (-1)) in
  let r := Init 1024 Status.OK (1, 2) None this in
  Status.ok (fst r) = true
  /\ max_errors (query_options (snd r)) = 100
  /\ batch_size (query_options (snd r)) = 1024.
Proof.
  intros this r.
  assert (Hok : Status.ok (fst r) = true) by reflexivity.
  destruct (Init_clamps_options 1024 Status.OK (1, 2) None this (snd r)
              (fst r) (surjective_pairing r) Hok)
    as (Hmax & _ & Hbatch & _).
  split; [exact Hok|]. split.
  - apply Hmax. cbn. lia.
  - apply Hbatch. cbn. lia.
Defined.

(** C8 as stated fails when [Init] returns early.  With code generation
    enabled and an IR that cannot be loaded, [Init] returns the error of
    [CreateCodegen] before it reaches the options: an incoming
    [max_errors = 0] is still 0, not 100, and an incoming [batch_size = 0]
    is still 0. *)
Lemma Init_error_leaves_options :
  let ir_error := Status.of_msg "Could not load IR module" in
  let this := initial (mkOptions false 0 0) in
  let r := Init 1024 ir_error (1, 2) None this in
  Status.ok (fst r) = false
  /\ max_errors (query_options (snd r)) = 0
  /\ max_errors (query_options (snd r)) <> 100
  /\ batch_size (query_options (snd r)) = 0
  /\ batch_size (query_options (snd r)) <> 1024.
Proof. cbv zeta. repeat split; try reflexivity; cbn; discriminate. Qed.

End RuntimeStateInitExamples.

(** *** SetMemLimitExceeded *)

Section SetMemLimitExceededFacts.

Import RuntimeState.

Variable PrettyPrinter_Print : Z -> TCounterType.type -> string.

Lemma mem_limit_message_status
      (tracker : option MemTracker) (size : Z) (st : Status.t) (this : t) :
  mem_limit_message PrettyPrinter_Print tracker size (set_query_status st this)
  = mem_limit_message PrettyPrinter_Print tracker size this.
Proof. reflexivity. Qed.

(** The dump in the message is that of the process tracker when its limit
    is exceeded, of the query tracker otherwise. *)
Lemma mem_limit_message_usage
      (tracker : option MemTracker) (size : Z) (this : t) (msg : string) :
  mem_limit_message PrettyPrinter_Print tracker size this = Some msg ->
  exists (env : ExecEnv) (front : string),
    exec_env_ this = Some env
    /\ if LimitExceeded (process_mem_tracker env)
       then msg = front +:+ LogUsage (process_mem_tracker env)
       else exists q, query_mem_tracker_ this = Some q
                      /\ msg = front +:+ LogUsage q.
Proof.
  unfold mem_limit_message. intros H.
  destruct (if size =? 0 then Some EmptyString else _) as [line|];
    [|discriminate].
  cbn [mbind option_bind] in H.
  destruct (exec_env_ this) as [env|]; [|discriminate].
  cbn [mbind option_bind] in H.
  exists env, ("Memory Limit Exceeded" +:+ Status.endl +:+ line).
  split; [reflexivity|].
  destruct (LimitExceeded (process_mem_tracker env)).
  - cbn in H. injection H as <-. now rewrite !string_append_assoc.
  - destruct (query_mem_tracker_ this) as [q|]; [|discriminate].
    cbn in H. injection H as <-. exists q.
    split; [reflexivity|]. now rewrite !string_append_assoc.
Qed.

Lemma SetMemLimitExceeded_failed
      (tracker : option MemTracker) (size : Z) (this : t) :
  Status.ok (query_status_ this) = false ->
  SetMemLimitExceeded PrettyPrinter_Print tracker size this
  = Some (query_status_ this, this).
Proof. intros H. unfold SetMemLimitExceeded. now rewrite H. Qed.

(** C2, as the code has it.  With the pointers the call dereferences valid
    ([mem_limit_message] is [Some msg]): if [query_status_] is OK the call
    makes it MEM_LIMIT_EXCEEDED, returns that status, and hands [msg] to
    [LogError], which appends it as one entry when the log has room and
    drops it when the log is full; [msg] ends with the usage of the process
    tracker if that exceeded its limit and of the query tracker otherwise;
    a second call returns the same status and changes nothing.  If
    [query_status_] is not OK the call returns it and changes nothing. *)
Theorem SetMemLimitExceeded_spec
  (tracker tracker' : option MemTracker) (size size' : Z) (this : t)
  (msg : string) :
  mem_limit_message PrettyPrinter_Print tracker size this = Some msg ->
  (Status.ok (query_status_ this) = true ->
   exists this',
     SetMemLimitExceeded PrettyPrinter_Print tracker size this
     = Some (Status.MEM_LIMIT_EXCEEDED, this')
     /\ query_status_ this' = Status.MEM_LIMIT_EXCEEDED
     /\ error_log_ this'
        = (if Z.of_nat (length (error_log_ this))
                <? Int.to_size_t (max_errors (query_options this))
           then error_log_ this ++ [msg]
           else error_log_ this)
     /\ (exists (env : ExecEnv) (front : string),
           exec_env_ this = Some env
           /\ if LimitExceeded (process_mem_tracker env)
              then msg = front +:+ LogUsage (process_mem_tracker env)
              else exists q, query_mem_tracker_ this = Some q
                             /\ msg = front +:+ LogUsage q)
     /\ SetMemLimitExceeded PrettyPrinter_Print tracker' size' this'
        = Some (Status.MEM_LIMIT_EXCEEDED, this'))
  /\ (Status.ok (query_status_ this) = false ->
      SetMemLimitExceeded PrettyPrinter_Print tracker' size' this
      = Some (query_status_ this, this)).
Proof.
  intros Hmsg. split; [|apply SetMemLimitExceeded_failed].
  intros Hok. unfold SetMemLimitExceeded at 1. rewrite Hok.
  rewrite mem_limit_message_status, Hmsg. cbn [mbind option_bind].
  exists (snd (LogError msg
                 (set_query_status Status.MEM_LIMIT_EXCEEDED this))).
  assert (Hst : query_status_
                  (snd (LogError msg
                          (set_query_status Status.MEM_LIMIT_EXCEEDED this)))
                = Status.MEM_LIMIT_EXCEEDED).
  { unfold LogError. now destruct (_ <? _). }
  split; [now rewrite Hst|]. split; [exact Hst|]. split; [|split].
  - unfold LogError. cbn [set_query_status error_log_ query_options].
    now destruct (_ <? _).
  - now apply (mem_limit_message_usage tracker size).
  - rewrite <- Hst at 2. apply SetMemLimitExceeded_failed. now rewrite Hst.
Qed.

End SetMemLimitExceededFacts.

Section SetMemLimitExceededExamples.

Import RuntimeState.

(** Scenario S3: the query tracker is at its limit, the process tracker is
    not; the log has room. *)
Lemma SetMemLimitExceeded_spec_witness :
  let print := fun (n : Z) (_ : TCounterType.type) => pretty n in
  let process := mkTracker "Process" false "Process: consumption=60" in
  let query := mkTracker "Query" true "Query Limit: limit=100 consumption=60" in
  let inst := mkTracker "Fragment 1:2" false "Fragment 1:2: consumption=60" in
  let this :=
    mk (1, 2) (mkOptions true 100 1024) (Some (mkEnv process)) false true
       [] 0%nat Status.OK (Some query) false in
  exists msg this',
    mem_limit_message print (Some inst) 50 this = Some msg
    /\ SetMemLimitExceeded print (Some inst) 50 this
       = Some (Status.MEM_LIMIT_EXCEEDED, this')
    /\ error_log_ this' = [msg]
    /\ SetMemLimitExceeded print (Some inst) 50 this'
       = Some (Status.MEM_LIMIT_EXCEEDED, this').
Proof.
  intros print process query inst this.
  destruct (mem_limit_message print (Some inst) 50 this) as [msg|] eqn:Hmsg;
    [|discriminate].
  destruct (SetMemLimitExceeded_spec print (Some inst) (Some inst) 50 50
              this msg Hmsg) as [Hfirst _].
  destruct (Hfirst eq_refl) as (this' & Hrun & _ & Hlog & _ & Hagain).
  exists msg, this'. split; [reflexivity|]. split; [exact Hrun|].
  split; [exact Hlog | exact Hagain].
Defined.

(** C2 as stated fails on a full log.  With [max_errors = 1] and one entry
    logged already, the status is OK and the call makes it
    MEM_LIMIT_EXCEEDED, but [LogError] drops the message: the log holds the
    same single entry as before, so no entry has been appended. *)
Lemma SetMemLimitExceeded_full_log_appends_nothing :
  let print := fun (n : Z) (_ : TCounterType.type) => pretty n in
  let process := mkTracker "Process" false "Process: consumption=60" in
  let query := mkTracker "Query" true "Query Limit: limit=100 consumption=60" in
  let inst := mkTracker "Fragment 1:2" false "Fragment 1:2: consumption=60" in
  let this :=
    mk (1, 2) (mkOptions true 1 1024) (Some (mkEnv process)) false true
       ["Parse error in row 7"%string] 1%nat Status.OK (Some query) false in
  Status.ok (query_status_ this) = true
  /\ exists this',
       SetMemLimitExceeded print (Some inst) 50 this
       = Some (Status.MEM_LIMIT_EXCEEDED, this')
       /\ error_log_ this' = error_log_ this
       /\ ~ (exists entry, error_log_ this' = error_log_ this ++ [entry]).
Proof.
  cbv zeta. split; [reflexivity|].
  eexists. split; [reflexivity|]. split; [reflexivity|].
  intros [entry H]. cbn in H. discriminate.
Qed.

End SetMemLimitExceededExamples.

(** ** ThriftClientImpl: OpenWithRetry *)

Section ThriftClientFacts.

Import ThriftClientImpl.

Variable transport_open : nat -> option string.

Lemma Open_nth_0 (c : t) :
  Open_nth transport_open 0 c = fst (Open transport_open c).
Proof. cbn [Open_nth]. now destruct (Open transport_open c). Qed.

Lemma Open_nth_S (j : nat) (c : t) :
  Open_nth transport_open (S j) c
  = Open_nth transport_open j (snd (Open transport_open c)).
Proof. cbn [Open_nth]. now destruct (Open transport_open c). Qed.

Lemma Open_counts (c : t) :
  Open_calls (snd (Open transport_open c)) = S (Open_calls c).
Proof.
  unfold Open. cbn [socket_create_status_ transport_isOpen transport_attempts].
  destruct (negb _); [reflexivity|].
  destruct (transport_isOpen c); [reflexivity|].
  now destruct (transport_open _).
Qed.

(** [Open] succeeds with [Status::OK] and nothing else. *)
Lemma Open_ok_is_OK (c : t) :
  Status.ok (fst (Open transport_open c)) = true ->
  fst (Open transport_open c) = Status.OK.
Proof.
  unfold Open. cbn [socket_create_status_ transport_isOpen transport_attempts].
  destruct (Status.ok (socket_create_status_ c)) eqn:Hs; cbn [negb fst].
  - destruct (transport_isOpen c); [reflexivity|].
    destruct (transport_open _); [discriminate | reflexivity].
  - congruence.
Qed.

(** Sleeping and logging do not change what [Open] does. *)
Lemma Open_SleepForMs (ms : Z) (c : t) :
  Open transport_open (SleepForMs ms c)
  = (fst (Open transport_open c), SleepForMs ms (snd (Open transport_open c))).
Proof.
  unfold Open, SleepForMs.
  cbn [socket_create_status_ transport_isOpen transport_attempts ipaddress_
       port_ Open_calls slept_ms log_].
  destruct (negb _); [reflexivity|].
  destruct (transport_isOpen c); [reflexivity|].
  now destruct (transport_open _).
Qed.

Lemma Open_LOG (line : string) (c : t) :
  Open transport_open (LOG line c)
  = (fst (Open transport_open c), LOG line (snd (Open transport_open c))).
Proof.
  unfold Open, LOG.
  cbn [socket_create_status_ transport_isOpen transport_attempts ipaddress_
       port_ Open_calls slept_ms log_].
  destruct (negb _); [reflexivity|].
  destruct (transport_isOpen c); [reflexivity|].
  now destruct (transport_open _).
Qed.

Lemma Open_nth_SleepForMs (i : nat) (ms : Z) (c : t) :
  Open_nth transport_open i (SleepForMs ms c) = Open_nth transport_open i c.
Proof.
  revert c. induction i as [|i IH]; intros c.
  - now rewrite !Open_nth_0, Open_SleepForMs.
  - rewrite !Open_nth_S, Open_SleepForMs. cbn [fst snd]. apply IH.
Qed.

Lemma Open_nth_LOG (i : nat) (line : string) (c : t) :
  Open_nth transport_open i (LOG line c) = Open_nth transport_open i c.
Proof.
  revert c. induction i as [|i IH]; intros c.
  - now rewrite !Open_nth_0, Open_LOG.
  - rewrite !Open_nth_S, Open_LOG. cbn [fst snd]. apply IH.
Qed.

Lemma Open_nth_ok_is_OK (i : nat) (c : t) :
  Status.ok (Open_nth transport_open i c) = true ->
  Open_nth transport_open i c = Status.OK.
Proof.
  revert c. induction i as [|i IH]; intros c.
  - rewrite Open_nth_0. apply Open_ok_is_OK.
  - rewrite Open_nth_S. apply IH.
Qed.

Lemma all_fail_S (n : nat) (c : t) :
  Status.ok (fst (Open transport_open c)) = false ->
  all_fail transport_open n (snd (Open transport_open c)) ->
  all_fail transport_open (S n) c.
Proof.
  intros H0 Hn [|j] Hj.
  - now rewrite Open_nth_0.
  - rewrite Open_nth_S. apply Hn. lia.
Qed.

Lemma all_fail_inv (n : nat) (c : t) :
  all_fail transport_open (S n) c ->
  Status.ok (fst (Open transport_open c)) = false
  /\ all_fail transport_open n (snd (Open transport_open c)).
Proof.
  intros H. split.
  - rewrite <- Open_nth_0. apply H. lia.
  - intros j Hj. rewrite <- Open_nth_S. apply H. lia.
Qed.

Lemma retry_equiv_refl (c : t) : retry_equiv transport_open c c.
Proof. now split. Qed.

Lemma retry_equiv_LOG (line : string) (c1 c2 : t) :
  retry_equiv transport_open c1 c2 -> retry_equiv transport_open c1 (LOG line c2).
Proof.
  intros [Hc Hn]. split; [exact Hc|].
  intros j. now rewrite Open_nth_LOG.
Qed.

Lemma retry_equiv_SleepForMs (ms : Z) (c1 c2 : t) :
  retry_equiv transport_open c1 c2 -> retry_equiv transport_open c1 (SleepForMs ms c2).
Proof.
  intros [Hc Hn]. split; [exact Hc|].
  intros j. now rewrite Open_nth_SleepForMs.
Qed.

Lemma all_fail_equiv (n : nat) (c1 c2 : t) :
  retry_equiv transport_open c1 c2 -> all_fail transport_open n c2 ->
  all_fail transport_open n c1.
Proof. intros [_ Hn] H j Hj. rewrite <- Hn. now apply H. Qed.

Create HintDb retry.

#[local] Hint Resolve retry_equiv_refl retry_equiv_LOG retry_equiv_SleepForMs
  : retry.

(** With [num_tries > 0] and [n] tries left, at most [n] attempts are made
    and [n] rounds of the loop are enough. *)
Lemma OpenWithRetry_loop_bounded (n : nat) :
  forall (fuel : nat) (num_tries wait_ms try_count : Z) (c : t),
    0 <= try_count ->
    try_count + Z.of_nat n = num_tries ->
    num_tries < 2 ^ 32 ->
    (0 < n <= fuel)%nat ->
    exists (i : nat) (c' : t),
      (i < n)%nat
      /\ OpenWithRetry_loop transport_open fuel num_tries wait_ms try_count c
         = Some (Open_nth transport_open i c, c')
      /\ Open_calls c' = (Open_calls c + S i)%nat
      /\ all_fail transport_open i c
      /\ (Status.ok (Open_nth transport_open i c) = true \/ S i = n).
Proof.
  induction n as [|n IH]; intros fuel num_tries wait_ms try_count c
    Htc Hsum Hmax [Hn Hfuel]; [lia|].
  destruct fuel as [|fuel]; [lia|].
  cbn [OpenWithRetry_loop].
  rewrite to_uint32_nonneg by lia.
  pose proof (Open_nth_0 c) as H0. pose proof (Open_counts c) as Hcount.
  pose proof (fun j => Open_nth_S j c) as HS.
  pose proof (all_fail_S) as HfailS. specialize (HfailS) with (c := c).
  destruct (Open transport_open c) as [status c1]. cbn [fst snd] in *.
  destruct (Status.ok status) eqn:Hok.
  - exists 0%nat, c1. rewrite H0.
    repeat split; [lia | lia | intros j Hj; lia | now left].
  - destruct (Z.eqb_spec num_tries 0) as [|_]; [lia|].
    match goal with
    | |- context [if try_count + 1 =? num_tries then Some (_, ?c2) else _] =>
        assert (Hequiv : retry_equiv transport_open c1 c2)
          by (destruct (negb (num_tries =? 1)); auto with retry);
        set (cl := c2) in *
    end.
    destruct (Z.eqb_spec (try_count + 1) num_tries) as [Hlast|Hmore].
    + exists 0%nat, cl. rewrite H0. destruct Hequiv as [Hcalls _].
      repeat split; [lia | lia | intros j Hj; lia | right; lia].
    + assert (Hequiv' : retry_equiv transport_open c1 (SleepForMs wait_ms cl))
        by auto with retry.
      destruct (IH fuel num_tries wait_ms (try_count + 1)
                  (SleepForMs wait_ms cl))
        as (i & c' & Hi & Hrun & Hcalls & Hfail & Hend); try lia.
      destruct Hequiv' as [Hc Hnth].
      exists (S i), c'. rewrite HS, <- Hnth.
      split; [lia|]. split; [exact Hrun|]. split; [lia|]. split.
      * apply HfailS; [reflexivity|].
        apply (all_fail_equiv i c1 (SleepForMs wait_ms cl));
          [now split | exact Hfail].
      * destruct Hend as [Hend|Hend]; [now left | right; lia].
Qed.

(** With [num_tries = 0] the loop returns only from a successful [Open]. *)
Lemma OpenWithRetry_loop_forever_ok (fuel : nat) :
  forall (wait_ms try_count : Z) (c c' : t) (status : Status.t),
    OpenWithRetry_loop transport_open fuel 0 wait_ms try_count c
    = Some (status, c') ->
    Status.ok status = true.
Proof.
  induction fuel as [|fuel IH]; intros wait_ms try_count c c' status;
    [discriminate|].
  cbn [OpenWithRetry_loop].
  destruct (Open transport_open c) as [st c1].
  destruct (Status.ok st) eqn:Hok.
  - intros [= <- <-]. exact Hok.
  - rewrite Z.eqb_refl. apply IH.
Qed.

(** With [num_tries = 0], as many failed attempts as there are rounds leave
    the loop running. *)
Lemma OpenWithRetry_loop_forever_fail (fuel : nat) :
  forall (wait_ms try_count : Z) (c : t),
    all_fail transport_open fuel c ->
    OpenWithRetry_loop transport_open fuel 0 wait_ms try_count c = None.
Proof.
  induction fuel as [|fuel IH]; intros wait_ms try_count c Hfail;
    [reflexivity|].
  cbn [OpenWithRetry_loop].
  destruct (all_fail_inv _ _ Hfail) as [H0 Hrest].
  destruct (Open transport_open c) as [st c1]. cbn [fst snd] in *.
  rewrite H0, Z.eqb_refl. apply IH.
  intros j Hj. rewrite Open_nth_SleepForMs, !Open_nth_LOG. now apply Hrest.
Qed.

(** With [num_tries = 0], the first successful attempt ends the loop. *)
Lemma OpenWithRetry_loop_forever_success (i : nat) :
  forall (fuel : nat) (wait_ms try_count : Z) (c : t),
    all_fail transport_open i c ->
    Status.ok (Open_nth transport_open i c) = true ->
    (i < fuel)%nat ->
    exists c',
      OpenWithRetry_loop transport_open fuel 0 wait_ms try_count c
      = Some (Open_nth transport_open i c, c')
      /\ Open_calls c' = (Open_calls c + S i)%nat.
Proof.
  induction i as [|i IH]; intros fuel wait_ms try_count c Hfail Hok Hfuel;
    (destruct fuel as [|fuel]; [lia|]); cbn [OpenWithRetry_loop].
  - rewrite Open_nth_0 in *. pose proof (Open_counts c) as Hcount.
    destruct (Open transport_open c) as [st c1]. cbn [fst snd] in *.
    rewrite Hok. exists c1. split; [reflexivity | lia].
  - destruct (all_fail_inv _ _ Hfail) as [H0 Hrest].
    rewrite Open_nth_S in *. pose proof (Open_counts c) as Hcount.
    destruct (Open transport_open c) as [st c1]. cbn [fst snd] in *.
    rewrite H0, Z.eqb_refl.
    match goal with
    | |- context [OpenWithRetry_loop _ _ _ _ ?tc ?c2] =>
        destruct (IH fuel wait_ms tc c2) as (c' & Hrun & Hcalls)
    end.
    + intros j Hj. rewrite Open_nth_SleepForMs, !Open_nth_LOG.
      now apply Hrest.
    + now rewrite Open_nth_SleepForMs, !Open_nth_LOG.
    + lia.
    + rewrite Open_nth_SleepForMs, !Open_nth_LOG in Hrun.
      exists c'. split; [exact Hrun|]. cbn in Hcalls. lia.
Qed.

(** C7.  With [num_tries = k > 0], [k] rounds of the loop are always
    enough: [OpenWithRetry] returns after [i + 1 <= k] calls of [Open], the
    first [i] of which failed, with the status of the last one, which is
    [Status::OK] (the first success) or else the failure of attempt [k].
    With [num_tries = 0] it returns only an OK status, is still running
    after any number of failed attempts, and returns OK at the first attempt
    that succeeds. *)
Theorem OpenWithRetry_spec (k wait_ms : Z) (c : t) :
  0 < k < 2 ^ 32 ->
  (forall fuel : nat,
     (Z.to_nat k <= fuel)%nat ->
     exists (i : nat) (c' : t),
       (S i <= Z.to_nat k)%nat
       /\ OpenWithRetry transport_open fuel k wait_ms c
          = Some (Open_nth transport_open i c, c')
       /\ Open_calls c' = (Open_calls c + S i)%nat
       /\ all_fail transport_open i c
       /\ (Open_nth transport_open i c = Status.OK
           \/ (S i = Z.to_nat k
               /\ Status.ok (Open_nth transport_open i c) = false)))
  /\ (forall (fuel : nat) (status : Status.t) (c' : t),
        OpenWithRetry transport_open fuel 0 wait_ms c = Some (status, c') ->
        Status.ok status = true)
  /\ (forall n : nat,
        all_fail transport_open n c ->
        OpenWithRetry transport_open n 0 wait_ms c = None)
  /\ (forall i fuel : nat,
        all_fail transport_open i c ->
        Status.ok (Open_nth transport_open i c) = true ->
        (i < fuel)%nat ->
        exists c',
          OpenWithRetry transport_open fuel 0 wait_ms c = Some (Status.OK, c')
          /\ Open_calls c' = (Open_calls c + S i)%nat).
Proof.
  intros Hk. unfold OpenWithRetry. repeat split.
  - intros fuel Hfuel.
    destruct (OpenWithRetry_loop_bounded (Z.to_nat k) fuel k wait_ms 0 c)
      as (i & c' & Hi & Hrun & Hcalls & Hfail & Hend); try lia.
    exists i, c'. split; [lia|]. split; [exact Hrun|].
    split; [exact Hcalls|]. split; [exact Hfail|].
    destruct (Status.ok (Open_nth transport_open i c)) eqn:Hok.
    + left. now apply Open_nth_ok_is_OK.
    + right. destruct Hend as [Hend|Hend]; [discriminate | now split].
  - intros fuel status c'. apply OpenWithRetry_loop_forever_ok.
  - intros n. apply OpenWithRetry_loop_forever_fail.
  - intros i fuel Hfail Hok Hfuel.
    destruct (OpenWithRetry_loop_forever_success i fuel wait_ms 0 c
                Hfail Hok Hfuel) as (c' & Hrun & Hcalls).
    exists c'. rewrite (Open_nth_ok_is_OK _ _ Hok) in Hrun. now split.
Qed.

End ThriftClientFacts.

Section ThriftClientExamples.

Import ThriftClientImpl.

(** A network that refuses the first two connections. *)
Lemma OpenWithRetry_spec_witness :
  let net := fun n : nat =>
               if (n <? 2)%nat then Some "Connection refused"%string
               else None in
  let c := mk "10.0.0.7" 22000 Status.OK false 0 0 0 [] in
  0 < 3 < 2 ^ 32
  /\ exists (i : nat) (c' : t),
       (S i <= 3)%nat
       /\ OpenWithRetry net 3 3 100 c = Some (Open_nth net i c, c')
       /\ Open_calls c' = S i.
Proof.
  intros net c.
  assert (Hk : 0 < 3 < 2 ^ 32) by lia.
  destruct (OpenWithRetry_spec net 3 100 c Hk) as [Hbounded _].
  destruct (Hbounded 3%nat) as (i & c' & Hi & Hrun & Hcalls & _).
  - vm_compute. lia.
  - split; [exact Hk|]. exists i, c'.
    split; [exact Hi|]. split; [exact Hrun | exact Hcalls].
Defined.

End ThriftClientExamples.

(** ** RuntimeProfile: counter names are unique *)

Section RuntimeProfileFacts.

Import RuntimeProfile.

Lemma AddCounter_registers
      (name parent : string) (type : TCounterType.type) (p : t) :
  GetCounter name (snd (AddCounter name type parent p))
  = Some (fst (AddCounter name type parent p)).
Proof.
  unfold AddCounter, GetCounter.
  destruct (counter_map_ p !! name) as [c|] eqn:E; cbn [fst snd counter_map_].
  - exact E.
  - apply lookup_insert_eq.
Qed.

Lemma AddCounter_existing
      (name parent : string) (type : TCounterType.type) (p : t) (c : nat) :
  GetCounter name p = Some c -> AddCounter name type parent p = (c, p).
Proof. unfold GetCounter, AddCounter. now intros ->. Qed.

Lemma AddCounter_keeps
      (name parent n : string) (type : TCounterType.type) (p : t) (c : nat) :
  GetCounter n p = Some c ->
  GetCounter n (snd (AddCounter name type parent p)) = Some c.
Proof.
  unfold AddCounter, GetCounter. intros Hn.
  destruct (counter_map_ p !! name) as [c0|] eqn:E; cbn [snd counter_map_].
  - exact Hn.
  - rewrite lookup_insert_ne; [exact Hn|]. congruence.
Qed.

(** C9.  A second [AddCounter] with the same name returns the counter the
    first one returned and leaves the profile as it is, so no second counter
    is created; the name then maps to that counter; and a counter
    registered under a name is what [GetCounter] of that name returns,
    before and after further [AddCounter] calls: a name denotes one counter
    of the profile. *)
Theorem AddCounter_twice_same_counter
  (p : t) (name parent parent' : string) (type type' : TCounterType.type) :
  AddCounter name type' parent' (snd (AddCounter name type parent p))
  = AddCounter name type parent p
  /\ GetCounter name (snd (AddCounter name type parent p))
     = Some (fst (AddCounter name type parent p))
  /\ num_counters
       (snd (AddCounter name type' parent' (snd (AddCounter name type parent p))))
     = num_counters (snd (AddCounter name type parent p))
  /\ (forall (n : string) (c : nat),
        counter_map_ p !! n = Some c ->
        GetCounter n p = Some c
        /\ GetCounter n (snd (AddCounter name type parent p)) = Some c).
Proof.
  assert (Hsame :
            AddCounter name type' parent' (snd (AddCounter name type parent p))
            = AddCounter name type parent p).
  { rewrite (AddCounter_existing _ _ _ _ _
               (AddCounter_registers name parent type p)).
    now destruct (AddCounter name type parent p). }
  split; [exact Hsame|]. split; [apply AddCounter_registers|].
  split; [now rewrite Hsame|].
  intros n c Hn. split; [exact Hn|]. now apply AddCounter_keeps.
Qed.

Lemma AddCounter_twice_same_counter_witness :
  let p0 := mk "Fragment 1:2" [] ∅ ∅ in
  let p := snd (AddCounter "TotalCpuTime" TCounterType.TIME_NS "" p0) in
  GetCounter "TotalCpuTime" p = Some 0%nat
  /\ GetCounter "TotalCpuTime"
       (snd (AddCounter "RowsRead" TCounterType.UNIT "" p)) = Some 0%nat.
Proof.
  intros p0 p.
  destruct (AddCounter_twice_same_counter
              p "RowsRead" "" "" TCounterType.UNIT TCounterType.UNIT)
    as (_ & _ & _ & Hkeep).
  apply (Hkeep "TotalCpuTime"%string 0%nat).
  subst p p0. unfold AddCounter. cbn [counter_map_ pool_ snd length].
  rewrite lookup_empty. cbn [snd counter_map_ length pool_].
  apply lookup_insert_eq.
Defined.

End RuntimeProfileFacts.

(** ** Project: init validates the projection list *)

Section ProjectFacts.

Import Project.

Lemma extract_int_range (s : string) (v : Z) :
  extract_int s = Some v -> Int.INT_MIN <= v <= Int.INT_MAX.
Proof.
  unfold extract_int.
  destruct (match skipws s with
            | String "-"%char rest => (true, rest)
            | String "+"%char rest => (false, rest)
            | _ => (false, skipws s)
            end) as [negative s'].
  destruct (digits s' None) as [d|]; [|discriminate].
  destruct (Z.leb_spec Int.INT_MIN (if negative then - d else d)) as [Hlo|Hlo];
    destruct (Z.leb_spec (if negative then - d else d) Int.INT_MAX)
      as [Hhi|Hhi];
    cbn [andb]; try discriminate.
  intros [= <-]. lia.
Qed.

Lemma parseInput_range (s : string) :
  Int.INT_MIN <= parseInput s <= Int.INT_MAX.
Proof.
  unfold parseInput.
  destruct (after_dollar s) as [remainder|];
    [|unfold Int.INT_MIN, Int.INT_MAX; lia].
  destruct (extract_int remainder) as [v|] eqn:E;
    [now apply (extract_int_range remainder)
    |unfold Int.INT_MIN, Int.INT_MAX; lia].
Qed.

Lemma after_dollar_none (s : string) :
  (forall c, In c (list_ascii_of_string s) -> c <> "$"%char) ->
  after_dollar s = None.
Proof.
  induction s as [|c s IH]; intros H; [reflexivity|].
  cbn [after_dollar]. destruct (Ascii.eqb_spec c "$"%char) as [->|_].
  - exfalso. apply (H "$"%char); [now left | reflexivity].
  - apply IH. intros c' Hc'. apply H. now right.
Qed.

Lemma init_step_accepted
      (entry : string) (rest : list string) (cols : Z) (acc : list Z) :
  accepted cols entry ->
  init (entry :: rest) cols acc = init rest cols (acc ++ [parseInput entry]).
Proof.
  unfold accepted. intros [Hlo Hhi]. cbn [init].
  pose proof (parseInput_range entry) as Hr. unfold Int.INT_MAX in Hr.
  destruct (Z.leb_spec (parseInput entry) (-1)); [lia|].
  rewrite to_uint32_nonneg by lia.
  destruct (Z.geb_spec (parseInput entry) cols); [lia | reflexivity].
Qed.

Lemma init_accepted_prefix
      (pre rest : list string) (cols : Z) (acc : list Z) :
  Forall (accepted cols) pre ->
  init (pre ++ rest) cols acc
  = init rest cols (acc ++ List.map parseInput pre).
Proof.
  intros Hpre. revert acc.
  induction Hpre as [|e pre He _ IH]; intros acc.
  - cbn [app List.map]. now rewrite app_nil_r.
  - cbn [app List.map]. rewrite (init_step_accepted _ _ _ _ He), IH.
    now rewrite <- app_assoc.
Qed.

Lemma init_success (node : list string) (cols : Z) (acc projlist : list Z) :
  init node cols acc = (projlist, None) ->
  projlist = acc ++ List.map parseInput node
  /\ Forall (accepted cols) node.
Proof.
  revert acc. induction node as [|e node IH]; intros acc; cbn [init].
  - intros [= <-]. cbn [List.map]. now rewrite app_nil_r.
  - pose proof (parseInput_range e) as Hr. unfold Int.INT_MAX in Hr.
    destruct (Z.leb_spec (parseInput e) (-1)); [discriminate|].
    rewrite to_uint32_nonneg by lia.
    destruct (Z.geb_spec (parseInput e) cols); [discriminate|].
    intros Hrest. destruct (IH _ Hrest) as [-> Hnode]. split.
    + cbn [List.map]. now rewrite <- app_assoc.
    + constructor; [unfold accepted; lia | exact Hnode].
Qed.

Lemma column_in_range {A} (l : list A) (pos : Z) :
  0 <= pos < columns l ->
  exists x, column l pos = Some x /\ l !! Z.to_nat pos = Some x.
Proof.
  unfold columns, column. intros [Hlo Hhi].
  destruct (Z.ltb_spec pos 0); [lia|].
  destruct (lookup_lt_is_Some_2 l (Z.to_nat pos)) as [x Hx]; [lia|].
  now exists x.
Qed.

Lemma map_in_range {V} (tuple : list V) (projlist : list Z) :
  Forall (fun p => 0 <= p < columns tuple) projlist ->
  exists out,
    map tuple projlist = Some out
    /\ Forall2 (fun p v => tuple !! Z.to_nat p = Some v) projlist out.
Proof.
  unfold map. induction 1 as [|p projlist Hp _ (out & Hout & Hall)].
  - exists []. split; [reflexivity | constructor].
  - destruct (column_in_range tuple p Hp) as (x & Hx & Hlook).
    exists (x :: out). split.
    + apply mapM_Some. constructor; [exact Hx|]. now apply mapM_Some.
    + now constructor.
Qed.

End ProjectFacts.

(** ** FragmentExecState: Cancel and the status report *)

Section CancelFacts.

Import FragmentExecState.

(** X1.  [Cancel] never writes [exec_status_].  While no error is recorded
    it signals the executor and returns OK, and the status stays OK, so that
    a later [UpdateStatus(err)] still records [err]; once an error is
    recorded it returns that error and does not signal the executor. *)
Theorem Cancel_keeps_exec_status (this : t) (err : Status.t) :
  Status.ok (exec_status_ this) = true ->
  Status.ok err = false ->
  Cancel this = (Status.OK, mk (exec_status_ this) true)
  /\ exec_status_ (snd (Cancel this)) = exec_status_ this
  /\ fst (UpdateStatus err (snd (Cancel this))) = err
  /\ Cancel (snd (UpdateStatus err this))
     = (err, snd (UpdateStatus err this))
  /\ executor_cancelled (snd (Cancel (snd (UpdateStatus err this))))
     = executor_cancelled this.
Proof.
  intros Hok Herr. unfold Cancel at 1 2 3. rewrite Hok. cbn [snd exec_status_].
  split; [reflexivity|]. split; [reflexivity|]. split.
  - unfold UpdateStatus. cbn [exec_status_]. now rewrite Hok, Herr.
  - rewrite (UpdateStatus_first_error _ _ Hok Herr). cbn [snd].
    unfold Cancel. cbn [set_exec_status exec_status_]. rewrite Herr.
    now split.
Qed.

Lemma Cancel_keeps_exec_status_witness :
  let err := Status.of_msg "scan failed" in
  Cancel new = (Status.OK, mk Status.OK true)
  /\ Cancel (snd (UpdateStatus err new)) = (err, mk err false).
Proof.
  intros err.
  destruct (Cancel_keeps_exec_status new err eq_refl eq_refl)
    as (H1 & _ & _ & H2 & _).
  split; [exact H1 | exact H2].
Defined.

End CancelFacts.

Section ReportStatusFacts.

Import ReportStatus.

Lemma RS_UpdateStatus_frame (st : Status.t) (this : t) :
  let this' := snd (UpdateStatus st this) in
  runtime_state this' = runtime_state this
  /\ sent this' = sent this
  /\ hdfs_files_to_move this' = hdfs_files_to_move this
  /\ rows_appended this' = rows_appended this
  /\ stats_inserted this' = stats_inserted this
  /\ coord_hostport_ this' = coord_hostport_ this
  /\ backend_num_ this' = backend_num_ this
  /\ exec_state this'
     = snd (FragmentExecState.UpdateStatus st (exec_state this))
  /\ fst (UpdateStatus st this)
     = fst (FragmentExecState.UpdateStatus st (exec_state this)).
Proof.
  unfold UpdateStatus.
  destruct (FragmentExecState.UpdateStatus st (exec_state this)) as [r e].
  cbn. repeat split.
Qed.

Lemma FES_UpdateStatus_executor (st : Status.t) (e : FragmentExecState.t) :
  FragmentExecState.executor_cancelled
    (snd (FragmentExecState.UpdateStatus st e))
  = FragmentExecState.executor_cancelled e.
Proof.
  unfold FragmentExecState.UpdateStatus. cbn [snd].
  now destruct (negb (Status.ok st) && _).
Qed.

Lemma FES_UpdateStatus_error (st : Status.t) (e : FragmentExecState.t) :
  Status.ok st = false ->
  Status.ok (FragmentExecState.exec_status_
               (snd (FragmentExecState.UpdateStatus st e))) = false.
Proof.
  intros Hst. unfold FragmentExecState.UpdateStatus. cbn [snd].
  rewrite Hst. cbn [negb andb].
  destruct (Status.ok (FragmentExecState.exec_status_ e)) eqn:He;
    [exact Hst | exact He].
Qed.

(** X2.  When no client for the coordinator can be had, the callback sends
    nothing, leaves the error log and its watermark alone and does not
    cancel the executor; it records an internal error unless an error is
    recorded already, so the fragment's status is not OK afterwards. *)
Theorem ReportStatusCb_no_client
  (net : Coordinator) (status : Status.t) (done : bool) (this : t) :
  Status.ok (client_status net) = false ->
  let this' := ReportStatusCb net status done this in
  sent this' = sent this
  /\ runtime_state this' = runtime_state this
  /\ FragmentExecState.executor_cancelled (exec_state this')
     = FragmentExecState.executor_cancelled (exec_state this)
  /\ Status.ok (FragmentExecState.exec_status_ (exec_state this')) = false
  /\ (Status.ok status = true ->
      Status.ok (FragmentExecState.exec_status_ (exec_state this)) = true ->
      FragmentExecState.exec_status_ (exec_state this')
      = internal_error
          ("couldn't get a client for " +:+ coord_hostport_ this)).
Proof.
  intros Hclient this'. subst this'. unfold ReportStatusCb.
  destruct (RS_UpdateStatus_frame status this)
    as (Hrs & Hsent & _ & _ & _ & Hhost & _ & Hes & _).
  destruct (UpdateStatus status this) as [exec_status this1].
  cbn [snd] in *. rewrite Hclient. cbn [negb].
  set (err := internal_error _).
  destruct (RS_UpdateStatus_frame err this1)
    as (Hrs2 & Hsent2 & _ & _ & _ & _ & _ & Hes2 & _).
  cbn zeta in *. rewrite Hrs2, Hsent2, Hes2, Hes, Hrs, Hsent.
  rewrite !FES_UpdateStatus_executor.
  repeat split.
  - now apply FES_UpdateStatus_error.
  - intros Hst Hok. subst err. rewrite Hhost.
    rewrite (UpdateStatus_of_ok _ _ Hst). cbn [snd].
    now rewrite UpdateStatus_first_error.
Qed.

End ReportStatusFacts.

Section ReportStatusRpcFacts.

Import ReportStatus.

Lemma RS_UpdateStatus_eq (st : Status.t) (this : t) :
  UpdateStatus st this
  = (fst (FragmentExecState.UpdateStatus st (exec_state this)),
     with_exec_state
       (snd (FragmentExecState.UpdateStatus st (exec_state this))) this).
Proof.
  unfold UpdateStatus.
  now destruct (FragmentExecState.UpdateStatus st (exec_state this)).
Qed.

Lemma build_params_eq (exec_status : Status.t) (done : bool) (this : t) :
  build_params exec_status done this
  = (mkParams (backend_num_ this) exec_status done
       (if done
        then Some (mkInsert (nonempty (hdfs_files_to_move this))
                            (nonempty (rows_appended this))
                            (nonempty (stats_inserted this)))
        else None)
       (fst (RuntimeState.GetUnreportedErrors [] (runtime_state this)))
       (Z.of_nat
          (length
             (fst (RuntimeState.GetUnreportedErrors []
                     (runtime_state this)))) >? 0),
     with_runtime_state
       (snd (RuntimeState.GetUnreportedErrors [] (runtime_state this)))
       this).
Proof.
  unfold build_params.
  now destruct (RuntimeState.GetUnreportedErrors [] (runtime_state this)).
Qed.

Ltac rs_start Hclient :=
  unfold ReportStatusCb, request; rewrite RS_UpdateStatus_eq, Hclient;
  cbn [negb]; rewrite build_params_eq; unfold report, delivered, retried;
  cbn [with_exec_state with_runtime_state send exec_state runtime_state
       sent coord_hostport_ backend_num_ hdfs_files_to_move rows_appended
       stats_inserted fst snd].

Ltac rs_step :=
  rewrite ?RS_UpdateStatus_eq;
  cbn [with_exec_state with_runtime_state send exec_state runtime_state
       sent coord_hostport_ backend_num_ hdfs_files_to_move rows_appended
       stats_inserted fst snd negb andb executor_Cancel
       Status.ok internal_error Status.code
       FragmentExecState.exec_status_ FragmentExecState.executor_cancelled].

Ltac rs_done := first [reflexivity | now rewrite <- app_assoc].

(** X3.  With a client at hand the callback calls the RPC stub once, and a
    second time exactly when the first call threw a transport exception and
    the reopen succeeded; both calls carry the same request.  The request
    holds the fragment's sticky status after [UpdateStatus(status)], not
    merely [status], the [done] flag, and as error log the part of the
    runtime state's log that no earlier call had handed out; the insert
    status is attached only when [done]. *)
Theorem ReportStatusCb_sends
  (net : Coordinator) (status : Status.t) (done : bool) (this : t) :
  Status.ok (client_status net) = true ->
  sent (ReportStatusCb net status done this)
  = sent this
      ++ (if retried net
          then [request status done this; request status done this]
          else [request status done this])
  /\ ReportStatus.status (request status done this)
     = fst (FragmentExecState.UpdateStatus status (exec_state this))
  /\ ReportStatus.done (request status done this) = done
  /\ error_log (request status done this)
     = drop (RuntimeState.unreported_error_idx_ (runtime_state this))
            (RuntimeState.error_log_ (runtime_state this))
  /\ (done = false -> insert_exec_status (request status done this) = None).
Proof.
  intros Hclient. split; [|split; [|split; [|split]]].
  - rs_start Hclient.
    destruct (first_call net) as [res|what|what]; rs_step.
    + now destruct (negb (Status.ok res)); rs_step.
    + destruct (Status.ok (reopen_status net)); rs_step; [|rs_done].
      destruct (second_call net) as [res|w|w]; rs_step; try rs_done.
      destruct (negb (Status.ok res)); rs_step; rs_done.
    + rs_done.
  - unfold request. now rewrite build_params_eq.
  - unfold request. now rewrite build_params_eq.
  - unfold request. rewrite build_params_eq.
    cbn [fst error_log with_exec_state runtime_state].
    apply GetUnreportedErrors_fresh.
  - intros ->. unfold request. now rewrite build_params_eq.
Qed.

End ReportStatusRpcFacts.

Section ReportStatusOutcomeFacts.

Import ReportStatus.

Ltac rs_start Hclient :=
  unfold ReportStatusCb; rewrite RS_UpdateStatus_eq, Hclient;
  cbn [negb]; rewrite build_params_eq; unfold report, delivered, retried;
  cbn [with_exec_state with_runtime_state send exec_state runtime_state
       sent coord_hostport_ backend_num_ hdfs_files_to_move rows_appended
       stats_inserted fst snd].

Ltac rs_step :=
  rewrite ?RS_UpdateStatus_eq;
  cbn [with_exec_state with_runtime_state send exec_state runtime_state
       sent coord_hostport_ backend_num_ hdfs_files_to_move rows_appended
       stats_inserted fst snd negb andb executor_Cancel
       Status.ok internal_error Status.code
       FragmentExecState.exec_status_ FragmentExecState.executor_cancelled].

(** X4.  With a client at hand: when the report is delivered (the first
    call, or the second after a transport exception and a successful
    reopen, returns an OK status) the callback leaves the fragment as
    [UpdateStatus(status)] left it, the executor not signalled.  In every
    other case (an error status from the coordinator, another exception, a
    failed reopen, a failed second call) the executor is cancelled and the
    fragment's status is not OK afterwards. *)
Theorem ReportStatusCb_outcome
  (net : Coordinator) (status : Status.t) (done : bool) (this : t) :
  Status.ok (client_status net) = true ->
  (delivered net = true ->
   exec_state (ReportStatusCb net status done this)
   = snd (FragmentExecState.UpdateStatus status (exec_state this)))
  /\ (delivered net = false ->
      FragmentExecState.executor_cancelled
        (exec_state (ReportStatusCb net status done this)) = true
      /\ Status.ok
           (FragmentExecState.exec_status_
              (exec_state (ReportStatusCb net status done this))) = false).
Proof.
  intros Hclient. split; intros Hd; revert Hd; rs_start Hclient.
  - destruct (first_call net) as [res|what|what]; rs_step.
    + now intros ->.
    + destruct (Status.ok (reopen_status net)); rs_step; [|discriminate].
      destruct (second_call net) as [res|w|w]; rs_step; try discriminate.
      now intros ->.
    + discriminate.
  - destruct (first_call net) as [res|what|what]; rs_step.
    + intros Hres. rewrite Hres. rs_step.
      split; [reflexivity | now apply FES_UpdateStatus_error].
    + destruct (Status.ok (reopen_status net)) eqn:Hre; rs_step.
      * destruct (second_call net) as [res|w|w]; rs_step.
        -- intros Hres. rewrite Hres. rs_step.
           split; [reflexivity | now apply FES_UpdateStatus_error].
        -- intros _.
           split; [reflexivity | now apply FES_UpdateStatus_error].
        -- intros _.
           split; [reflexivity | now apply FES_UpdateStatus_error].
      * intros _.
        split; [reflexivity | now apply FES_UpdateStatus_error].
    + intros _. split; [reflexivity | now apply FES_UpdateStatus_error].
Qed.

(** X5.  With a client at hand, whatever becomes of the RPC, the callback
    has moved the watermark to the end of the error log and left the log
    itself alone: the errors it attached are not handed out again, also
    when the report was not delivered. *)
Theorem ReportStatusCb_consumes_errors
  (net : Coordinator) (status : Status.t) (done : bool) (this : t) :
  Status.ok (client_status net) = true ->
  RuntimeState.error_log_ (runtime_state (ReportStatusCb net status done this))
  = RuntimeState.error_log_ (runtime_state this)
  /\ RuntimeState.GetUnreportedErrors []
       (runtime_state (ReportStatusCb net status done this))
     = ([], runtime_state (ReportStatusCb net status done this)).
Proof.
  intros Hclient.
  assert (Hrs : runtime_state (ReportStatusCb net status done this)
                = snd (RuntimeState.GetUnreportedErrors []
                         (runtime_state this))).
  { rs_start Hclient.
    destruct (first_call net) as [res|what|what]; rs_step.
    - now destruct (negb (Status.ok res)); rs_step.
    - destruct (Status.ok (reopen_status net)); rs_step; [|reflexivity].
      destruct (second_call net) as [res|w|w]; rs_step; try reflexivity.
      now destruct (negb (Status.ok res)); rs_step.
    - reflexivity. }
  rewrite Hrs. split.
  - apply GetUnreportedErrors_log.
  - apply GetUnreportedErrors_nothing_new, GetUnreportedErrors_watermark.
Qed.

End ReportStatusOutcomeFacts.

Section ReportStatusExamples.

Import ReportStatus.

Lemma ReportStatusCb_no_client_witness :
  let net := mkCoordinator (Status.of_msg "no client in cache")
               (Returns Status.OK) Status.OK (Returns Status.OK) in
  let rs := RuntimeState.set_error_log ["e1"%string]
              (RuntimeState.initial (RuntimeState.mkOptions true 10 1024)) in
  let this := mk FragmentExecState.new rs [] [] [] "coord:22000" 3 [] in
  sent (ReportStatusCb net Status.OK false this) = []
  /\ runtime_state (ReportStatusCb net Status.OK false this) = rs.
Proof.
  intros net rs this.
  destruct (ReportStatusCb_no_client net Status.OK false this eq_refl)
    as (H1 & H2 & _).
  split; [exact H1 | exact H2].
Defined.

(** Scenario S5: a transport exception on the first call, a successful
    reopen, and a second call that the coordinator answers with OK. *)
Lemma ReportStatusCb_sends_witness :
  let net := mkCoordinator Status.OK (ThrowsTTransportException "EPIPE")
               Status.OK (Returns Status.OK) in
  let rs := RuntimeState.set_error_log ["e1"%string]
              (RuntimeState.initial (RuntimeState.mkOptions true 10 1024)) in
  let this := mk FragmentExecState.new rs [] [] [] "coord:22000" 3 [] in
  sent (ReportStatusCb net Status.OK false this)
  = [request Status.OK false this; request Status.OK false this]
  /\ error_log (request Status.OK false this) = ["e1"%string].
Proof.
  intros net rs this.
  destruct (ReportStatusCb_sends net Status.OK false this eq_refl)
    as (H1 & _ & _ & H2 & _).
  split; [exact H1 | exact H2].
Defined.

Lemma ReportStatusCb_outcome_witness :
  let net := mkCoordinator Status.OK (ThrowsTTransportException "EPIPE")
               Status.OK (Returns Status.OK) in
  let lost := mkCoordinator Status.OK (ThrowsTTransportException "EPIPE")
                (Status.of_msg "Couldn't open transport") (Returns Status.OK) in
  let rs := RuntimeState.initial (RuntimeState.mkOptions true 10 1024) in
  let this := mk FragmentExecState.new rs [] [] [] "coord:22000" 3 [] in
  exec_state (ReportStatusCb net Status.OK false this) = FragmentExecState.new
  /\ FragmentExecState.executor_cancelled
       (exec_state (ReportStatusCb lost Status.OK false this)) = true.
Proof.
  intros net lost rs this.
  destruct (ReportStatusCb_outcome net Status.OK false this eq_refl)
    as [Hok _].
  destruct (ReportStatusCb_outcome lost Status.OK false this eq_refl)
    as [_ Hlost].
  split; [exact (Hok eq_refl) | exact (proj1 (Hlost eq_refl))].
Defined.

Lemma ReportStatusCb_consumes_errors_witness :
  let lost := mkCoordinator Status.OK (ThrowsTException "timed out")
                Status.OK (Returns Status.OK) in
  let rs := RuntimeState.set_error_log ["e1"%string]
              (RuntimeState.initial (RuntimeState.mkOptions true 10 1024)) in
  let this := mk FragmentExecState.new rs [] [] [] "coord:22000" 3 [] in
  fst (RuntimeState.GetUnreportedErrors [] (runtime_state this))
  = ["e1"%string]
  /\ fst (RuntimeState.GetUnreportedErrors []
            (runtime_state (ReportStatusCb lost Status.OK false this))) = [].
Proof.
  intros lost rs this.
  destruct (ReportStatusCb_consumes_errors lost Status.OK false this eq_refl)
    as [_ H].
  split; [reflexivity | now rewrite H].
Defined.

End ReportStatusExamples.

(** ** RuntimeState: more on the error log *)

Section ErrorLogMoreFacts.

Import RuntimeState.

Lemma run_call_log_grows (c : call) (this : t) :
  exists suffix, error_log_ (run_call c this) = error_log_ this ++ suffix.
Proof.
  destruct c as [error|status|]; cbn [run_call].
  - unfold LogError. destruct (_ <? _); cbn [snd set_error_log error_log_].
    + now exists [error].
    + exists []. now rewrite app_nil_r.
  - unfold LogError_status, LogError. destruct (Status.ok status).
    + exists []. now rewrite app_nil_r.
    + destruct (_ <? _); cbn [snd set_error_log error_log_].
      * now eexists [_].
      * exists []. now rewrite app_nil_r.
  - exists []. rewrite app_nil_r. apply GetUnreportedErrors_log.
Qed.

Lemma run_call_watermark (c : call) (this : t) :
  c <> CallGetUnreportedErrors ->
  unreported_error_idx_ (run_call c this) = unreported_error_idx_ this.
Proof.
  destruct c as [error|status|]; cbn [run_call]; intros Hc.
  - unfold LogError. now destruct (_ <? _).
  - unfold LogError_status, LogError. destruct (Status.ok status);
      [reflexivity|]. now destruct (_ <? _).
  - congruence.
Qed.

Lemma run_calls_reporting_log_grows (cs : list call) (this : t) :
  exists suffix,
    error_log_ (snd (run_calls_reporting cs this))
    = error_log_ this ++ suffix.
Proof.
  revert this. induction cs as [|c cs IH]; intros this.
  - exists []. cbn. now rewrite app_nil_r.
  - assert (Hstep : exists this1,
               snd (run_calls_reporting (c :: cs) this)
               = snd (run_calls_reporting cs this1)
               /\ exists s1, error_log_ this1 = error_log_ this ++ s1).
    { destruct c as [error|status|]; cbn [run_calls_reporting].
      - eexists. split; [reflexivity|].
        apply (run_call_log_grows (CallLogError error)).
      - eexists. split; [reflexivity|].
        apply (run_call_log_grows (CallLogError_status status)).
      - pose proof (GetUnreportedErrors_log [] this) as [Hlog _].
        destruct (GetUnreportedErrors [] this) as [ne this1].
        exists this1. cbn [snd] in *.
        destruct (run_calls_reporting cs this1). split; [reflexivity|].
        exists []. now rewrite app_nil_r. }
    destruct Hstep as (this1 & -> & s1 & Hs1).
    destruct (IH this1) as [s2 Hs2].
    exists (s1 ++ s2). now rewrite Hs2, Hs1, <- app_assoc.
Qed.

(** X6.  Over any sequence of [LogError] and [GetUnreportedErrors] calls
    (each of the latter with an empty vector), the errors handed out, in
    order, followed by those still beyond the watermark, are exactly the log
    from the initial watermark on: every logged error is handed out once,
    none twice and none skipped. *)
Theorem errors_reported_exactly_once (cs : list call) (this : t) :
  (unreported_error_idx_ this <= length (error_log_ this))%nat ->
  drop (unreported_error_idx_ this)
       (error_log_ (snd (run_calls_reporting cs this)))
  = fst (run_calls_reporting cs this)
      ++ drop (unreported_error_idx_ (snd (run_calls_reporting cs this)))
              (error_log_ (snd (run_calls_reporting cs this)))
  /\ (unreported_error_idx_ (snd (run_calls_reporting cs this))
      <= length (error_log_ (snd (run_calls_reporting cs this))))%nat.
Proof.
  revert this. induction cs as [|c cs IH]; intros this Hidx.
  - cbn. now split.
  - destruct c as [error|status|].
    + cbn [run_calls_reporting].
      destruct (run_call_log_grows (CallLogError error) this) as [s Hs].
      pose proof (run_call_watermark (CallLogError error) this) as Hw.
      destruct (IH (run_call (CallLogError error) this)) as [H1 H2].
      * rewrite Hw by discriminate. rewrite Hs, length_app. lia.
      * rewrite Hw in H1 by discriminate. now split.
    + cbn [run_calls_reporting].
      destruct (run_call_log_grows (CallLogError_status status) this)
        as [s Hs].
      pose proof (run_call_watermark (CallLogError_status status) this)
        as Hw.
      destruct (IH (run_call (CallLogError_status status) this))
        as [H1 H2].
      * rewrite Hw by discriminate. rewrite Hs, length_app. lia.
      * rewrite Hw in H1 by discriminate. now split.
    + cbn [run_calls_reporting].
      pose proof (GetUnreportedErrors_fresh this) as Hne.
      pose proof (GetUnreportedErrors_log [] this) as [Hlog _].
      pose proof (GetUnreportedErrors_watermark [] this) as Hwm.
      assert (Hidx1 : unreported_error_idx_ (snd (GetUnreportedErrors [] this))
                      = length (error_log_ this)).
      { unfold GetUnreportedErrors.
        destruct (Nat.ltb_spec (unreported_error_idx_ this)
                    (length (error_log_ this))); cbn; lia. }
      destruct (GetUnreportedErrors [] this) as [ne this1].
      cbn [fst snd] in *.
      destruct (run_calls_reporting_log_grows cs this1) as [s Hs].
      destruct (IH this1) as [H1 H2]; [rewrite Hidx1, Hlog; lia|].
      destruct (run_calls_reporting cs this1) as [reported this2].
      cbn [fst snd] in *. split; [|exact H2].
      rewrite <- app_assoc, <- H1, Hidx1, Hs, Hlog, Hne.
      rewrite drop_app_le by lia. f_equal.
      now rewrite drop_app_length.
Qed.

Lemma errors_reported_exactly_once_witness :
  let this := initial (mkOptions true 10 1024) in
  let cs := [CallLogError "e1"; CallGetUnreportedErrors; CallLogError "e2";
             CallLogError "e3"; CallGetUnreportedErrors;
             CallGetUnreportedErrors; CallLogError "e4"] in
  fst (run_calls_reporting cs this) = ["e1"; "e2"; "e3"]%string
  /\ drop 0 (error_log_ (snd (run_calls_reporting cs this)))
     = fst (run_calls_reporting cs this) ++ ["e4"]%string.
Proof.
  intros this cs.
  assert (H0 : (unreported_error_idx_ this <= length (error_log_ this))%nat)
    by (cbn; lia).
  destruct (errors_reported_exactly_once cs this H0) as [H _].
  split; [reflexivity | exact H].
Defined.

Lemma LogError_accepts (error : string) (this : t) :
  Z.of_nat (length (error_log_ this))
  < Int.to_size_t (max_errors (query_options this)) ->
  LogError error this = (true, set_error_log (error_log_ this ++ [error]) this).
Proof.
  intros H. unfold LogError.
  destruct (Z.ltb_spec (Z.of_nat (length (error_log_ this)))
              (Int.to_size_t (max_errors (query_options this))));
    [reflexivity | lia].
Qed.

(** X7.  The log keeps the first messages and drops the later ones: with
    [max_errors] a size, a run of [LogError] calls appends the first
    [max_errors - size] messages in order, returning true for them, and
    drops all the others, returning false. *)
Theorem LogError_seq_keeps_first (errors : list string) (this : t) :
  0 <= max_errors (query_options this) < 2 ^ 64 ->
  let room :=
    Z.to_nat (max_errors (query_options this)
              - Z.of_nat (length (error_log_ this))) in
  error_log_ (snd (LogError_seq errors this))
  = error_log_ this ++ take room errors
  /\ fst (LogError_seq errors this)
     = replicate (Nat.min room (length errors)) true
         ++ replicate (length errors - room) false.
Proof.
  revert this. induction errors as [|e errors IH]; intros this Hmax room.
  - cbn. rewrite take_nil, app_nil_r, Nat.min_0_r. now split.
  - cbn [LogError_seq].
    destruct (Z.ltb_spec (Z.of_nat (length (error_log_ this)))
                (max_errors (query_options this))) as [Hlt|Hge].
    + rewrite LogError_accepts by (rewrite to_size_t_nonneg; lia).
      set (this1 := set_error_log (error_log_ this ++ [e]) this).
      specialize (IH this1 Hmax). cbn zeta in IH.
      destruct (LogError_seq errors this1) as [rs this2]. cbn [fst snd] in *.
      assert (Hroom : room = S (Z.to_nat
                                  (max_errors (query_options this1)
                                   - Z.of_nat (length (error_log_ this1))))).
      { subst room this1. cbn [set_error_log error_log_ query_options].
        rewrite length_app. cbn [length]. lia. }
      destruct IH as [IH1 IH2]. rewrite Hroom, IH1, IH2.
      subst this1. cbn [set_error_log error_log_ query_options length].
      rewrite <- app_assoc. now split.
    + rewrite LogError_full by lia.
      specialize (IH this Hmax). cbn zeta in IH.
      destruct (LogError_seq errors this) as [rs this2]. cbn [fst snd] in *.
      assert (Hroom : Z.to_nat
                        (max_errors (query_options this)
                         - Z.of_nat (length (error_log_ this))) = 0%nat)
        by lia.
      subst room. rewrite Hroom in *. destruct IH as [IH1 IH2].
      rewrite IH1, IH2, !take_0. cbn [Nat.min replicate app length].
      rewrite !Nat.sub_0_r. now split.
Qed.

Lemma LogError_seq_keeps_first_witness :
  let this := new 1024 Status.OK (1, 2) (mkOptions true 2 0) None in
  error_log_ (snd (LogError_seq ["a"; "b"; "c"; "d"] this))
  = ["a"; "b"]%string
  /\ fst (LogError_seq ["a"; "b"; "c"; "d"] this)
     = [true; true; false; false].
Proof.
  intros this.
  assert (H : 0 <= max_errors (query_options this) < 2 ^ 64)
    by (vm_compute; split; [discriminate | reflexivity]).
  exact (LogError_seq_keeps_first ["a"; "b"; "c"; "d"]%string this H).
Defined.

Lemma LogError_seq_unbounded (errors : list string) (this : t) :
  Int.INT_MIN <= max_errors (query_options this) < 0 ->
  Z.of_nat (length (error_log_ this)) + Z.of_nat (length errors) < 2 ^ 63 ->
  error_log_ (snd (LogError_seq errors this)) = error_log_ this ++ errors
  /\ fst (LogError_seq errors this) = replicate (length errors) true.
Proof.
  revert this. induction errors as [|e errors IH]; intros this Hmax Hlen.
  - cbn. now rewrite app_nil_r.
  - cbn [LogError_seq]. rewrite LogError_accepts.
    + set (this1 := set_error_log (error_log_ this ++ [e]) this).
      destruct (IH this1) as [IH1 IH2]; [exact Hmax| |].
      * subst this1. cbn [set_error_log error_log_]. rewrite length_app.
        cbn [length] in *. lia.
      * destruct (LogError_seq errors this1) as [rs this2].
        cbn [fst snd] in *. rewrite IH1, IH2. subst this1.
        cbn [set_error_log error_log_ length replicate].
        now rewrite <- app_assoc.
    + unfold Int.to_size_t, Int.INT_MIN in *.
      assert (max_errors (query_options this) mod 2 ^ 64
              = max_errors (query_options this) + 2 ^ 64).
      { symmetry. apply Z.mod_unique with (q := -1); lia. }
      cbn [length] in Hlen. lia.
Qed.

(** X8.  The planning-side constructor does not clamp [max_errors].  With
    [max_errors = 0] the state it builds drops every message; with a
    negative [max_errors] it accepts every message, because [LogError]
    compares the size of the log with the option converted to [size_t]. *)
Theorem new_fe_max_errors_unclamped
  (D : Z) (opts : TQueryOptions) (env : option ExecEnv)
  (errors : list string) :
  Int.INT_MIN <= max_errors opts <= 0 ->
  Z.of_nat (length errors) < 2 ^ 63 ->
  max_errors (query_options (new_fe D opts env)) = max_errors opts
  /\ error_log_ (snd (LogError_seq errors (new_fe D opts env)))
     = (if max_errors opts =? 0 then [] else errors).
Proof.
  intros Hmax Hlen.
  assert (Hopt : max_errors (query_options (new_fe D opts env))
                 = max_errors opts) by reflexivity.
  assert (Hlog : error_log_ (new_fe D opts env) = []) by reflexivity.
  split; [exact Hopt|].
  destruct (Z.eqb_spec (max_errors opts) 0) as [H0|Hneg].
  - destruct (LogError_seq_keeps_first errors (new_fe D opts env)) as [H _].
    + rewrite Hopt, H0. lia.
    + rewrite H, Hlog, Hopt, H0. cbn. now rewrite take_0.
  - destruct (LogError_seq_unbounded errors (new_fe D opts env)) as [H _].
    + rewrite Hopt. lia.
    + rewrite Hlog. cbn [length]. lia.
    + now rewrite H, Hlog.
Qed.

Lemma new_fe_max_errors_unclamped_witness :
  error_log_
    (snd (LogError_seq ["a"; "b"; "c"]
            (new_fe 1024 (mkOptions true (-1) 0) None)))
  = ["a"; "b"; "c"]%string
  /\ error_log_
       (snd (LogError_seq ["a"; "b"; "c"]
               (new_fe 1024 (mkOptions true 0 0) None)))
     = [].
Proof.
  split.
  - apply (new_fe_max_errors_unclamped 1024 (mkOptions true (-1) 0) None
             ["a"; "b"; "c"]%string).
    + vm_compute. split; discriminate.
    + vm_compute. reflexivity.
  - apply (new_fe_max_errors_unclamped 1024 (mkOptions true 0 0) None
             ["a"; "b"; "c"]%string).
    + vm_compute. split; discriminate.
    + vm_compute. reflexivity.
Defined.

End ErrorLogMoreFacts.

(** ** RuntimeState: CheckQueryState, Init failures, file errors *)

Section CheckQueryStateFacts.

Import RuntimeState.

Variable PrettyPrinter_Print : Z -> TCounterType.type -> string.

Lemma SetMemLimitExceeded_first
      (tracker : option MemTracker) (size : Z) (this : t) (msg : string) :
  mem_limit_message PrettyPrinter_Print tracker size this = Some msg ->
  Status.ok (query_status_ this) = true ->
  SetMemLimitExceeded PrettyPrinter_Print tracker size this
  = Some (Status.MEM_LIMIT_EXCEEDED,
          snd (LogError msg
                 (set_query_status Status.MEM_LIMIT_EXCEEDED this)))
  /\ query_status_
       (snd (LogError msg (set_query_status Status.MEM_LIMIT_EXCEEDED this)))
     = Status.MEM_LIMIT_EXCEEDED.
Proof.
  intros Hmsg Hok.
  assert (Hst : query_status_
                  (snd (LogError msg
                          (set_query_status Status.MEM_LIMIT_EXCEEDED this)))
                = Status.MEM_LIMIT_EXCEEDED).
  { unfold LogError. now destruct (_ <? _). }
  split; [|exact Hst].
  unfold SetMemLimitExceeded. rewrite Hok.
  rewrite mem_limit_message_status, Hmsg. cbn [mbind option_bind].
  now rewrite Hst.
Qed.

(** X9.  With the pointers the call dereferences valid: once
    [CheckQueryState] has seen an exceeded limit the query is failed for
    good.  It returns MEM_LIMIT_EXCEEDED, or else the error recorded
    earlier, which an exceeded limit does not replace; and every later
    [CheckQueryState] returns that same status and changes nothing, also
    when no limit is exceeded any more. *)
Theorem CheckQueryState_trips_for_good (this : t) (msg : string) :
  mem_limit_message PrettyPrinter_Print None 0 this = Some msg ->
  exists (status : Status.t) (this' : t),
    CheckQueryState PrettyPrinter_Print true this = Some (status, this')
    /\ Status.ok status = false
    /\ status = (if Status.ok (query_status_ this)
                 then Status.MEM_LIMIT_EXCEEDED else query_status_ this)
    /\ (Status.ok (query_status_ this) = false -> this' = this)
    /\ (forall later : bool,
          CheckQueryState PrettyPrinter_Print later this'
          = Some (status, this')).
Proof.
  intros Hmsg. unfold CheckQueryState at 1.
  destruct (Status.ok (query_status_ this)) eqn:Hok.
  - destruct (SetMemLimitExceeded_first None 0 this msg Hmsg Hok)
      as [Hrun Hst].
    eexists _, _. split; [exact Hrun|].
    split; [reflexivity|]. split; [reflexivity|].
    split; [discriminate|].
    intros [|]; unfold CheckQueryState; [|now rewrite Hst].
    rewrite <- Hst at 2. apply SetMemLimitExceeded_failed. now rewrite Hst.
  - exists (query_status_ this), this.
    split; [now apply SetMemLimitExceeded_failed|].
    split; [exact Hok|]. split; [reflexivity|]. split; [reflexivity|].
    intros [|]; unfold CheckQueryState; [|reflexivity].
    now apply SetMemLimitExceeded_failed.
Qed.

End CheckQueryStateFacts.

Section CheckQueryStateExamples.

Import RuntimeState.

Lemma CheckQueryState_trips_for_good_witness :
  let print := fun (n : Z) (_ : TCounterType.type) => pretty n in
  let process := mkTracker "Process" false "Process: consumption=60" in
  let query := mkTracker "Query" true "Query: limit=100 consumption=110" in
  let this :=
    mk (1, 2) (mkOptions true 100 1024) (Some (mkEnv process)) false true
       [] 0%nat Status.OK (Some query) false in
  exists this',
    CheckQueryState print true this = Some (Status.MEM_LIMIT_EXCEEDED, this')
    /\ CheckQueryState print false this'
       = Some (Status.MEM_LIMIT_EXCEEDED, this').
Proof.
  intros print process query this.
  destruct (mem_limit_message print None 0 this) as [msg|] eqn:Hmsg;
    [|discriminate].
  destruct (CheckQueryState_trips_for_good print this msg Hmsg)
    as (status & this' & Hrun & _ & Hst & _ & Hlater).
  exists this'. cbn in Hst. subst status.
  split; [exact Hrun | exact (Hlater false)].
Defined.

End CheckQueryStateExamples.

Section InitFailureFacts.

Import RuntimeState.

(** X10.  [Init] can fail in one way only: code generation is enabled, no
    code generator exists yet and the IR cannot be loaded.  It then returns
    the loader's error and has neither registered with the thread manager
    nor changed an option, the log or the query status.  With code
    generation disabled it always returns OK. *)
Theorem Init_fails_only_on_codegen
  (D : Z) (ir : Status.t) (id : Z * Z) (env : option ExecEnv) (this : t) :
  Status.ok (fst (Init D ir id env this)) = false ->
  disable_codegen (query_options this) = false
  /\ codegen_ this = false
  /\ Status.ok ir = false
  /\ fst (Init D ir id env this) = ir
  /\ query_options (snd (Init D ir id env this)) = query_options this
  /\ resource_pool_ (snd (Init D ir id env this)) = resource_pool_ this
  /\ error_log_ (snd (Init D ir id env this)) = error_log_ this
  /\ query_status_ (snd (Init D ir id env this)) = query_status_ this.
Proof.
  rewrite Init_status. intros Hfail.
  destruct (disable_codegen (query_options this)) eqn:Hd; [discriminate|].
  destruct (codegen_ this) eqn:Hc; [discriminate|].
  cbn [orb] in Hfail.
  unfold Init, CreateCodegen. cbn [query_options codegen_].
  rewrite Hd, Hc, Hfail. cbn [negb]. rewrite Hfail. cbn.
  repeat split.
Qed.

Lemma Init_fails_only_on_codegen_witness :
  let ir := Status.of_msg "Could not load IR module" in
  let this := initial (mkOptions false 0 0) in
  fst (Init 1024 ir (1, 2) None this) = ir
  /\ query_options (snd (Init 1024 ir (1, 2) None this))
     = query_options this.
Proof.
  intros ir this.
  destruct (Init_fails_only_on_codegen 1024 ir (1, 2) None this eq_refl)
    as (_ & _ & _ & H1 & H2 & _).
  split; [exact H1 | exact H2].
Defined.

(** X11.  [FileErrors] prints one line per call of [ReportFileErrors], in
    the order of the calls: the text for two runs of reports is the text
    for the first followed by the text for the second, and a report adds
    its own line at the end, whether or not the file was reported
    before. *)
Theorem FileErrors_one_line_per_report
  (fe1 fe2 : list (string * Z)) (file_name : string) (num_errors : Z) :
  FileErrors (fe1 ++ fe2) = FileErrors fe1 +:+ FileErrors fe2
  /\ FileErrors (ReportFileErrors file_name num_errors fe1)
     = FileErrors fe1 +:+ pretty num_errors +:+ " errors in "
       +:+ file_name +:+ Status.endl.
Proof.
  assert (Hgen : forall (fe : list (string * Z)) (out : string),
            fold_left
              (fun out entry =>
                 out +:+ pretty (snd entry) +:+ " errors in " +:+ fst entry
                 +:+ Status.endl) fe out
            = out +:+ FileErrors fe).
  { unfold FileErrors. induction fe as [|[f n] fe IH]; intros out.
    - cbn [fold_left]. clear. induction out as [|c out IH]; [reflexivity|].
      change (String c out = String c (out +:+ EmptyString)).
      now rewrite <- IH.
    - cbn [fold_left]. rewrite IH. rewrite (IH (EmptyString +:+ _)).
      change (EmptyString +:+ pretty (snd (f, n)) +:+ " errors in "
              +:+ fst (f, n) +:+ Status.endl)
        with (pretty (snd (f, n)) +:+ " errors in "
              +:+ fst (f, n) +:+ Status.endl).
      now rewrite !string_append_assoc. }
  split.
  - unfold FileErrors at 1. rewrite fold_left_app.
    fold (FileErrors fe1). apply Hgen.
  - unfold ReportFileErrors, FileErrors. rewrite fold_left_app. reflexivity.
Qed.

End InitFailureFacts.

(** ** ThriftClientImpl: Open, Close and the cost of retrying *)

Section ThriftClientMoreFacts.

Import ThriftClientImpl.

Variable transport_open : nat -> option string.

Lemma Open_frame (c : t) :
  slept_ms (snd (Open transport_open c)) = slept_ms c
  /\ log_ (snd (Open transport_open c)) = log_ c
  /\ socket_create_status_ (snd (Open transport_open c))
     = socket_create_status_ c.
Proof.
  unfold Open. cbn [socket_create_status_ transport_isOpen transport_attempts].
  destruct (negb _); [now repeat split|].
  destruct (transport_isOpen c); [now repeat split|].
  now destruct (transport_open _).
Qed.

Lemma Open_succeeded (c : t) :
  Status.ok (fst (Open transport_open c)) = true ->
  Status.ok (socket_create_status_ c) = true
  /\ transport_isOpen (snd (Open transport_open c)) = true.
Proof.
  unfold Open. cbn [socket_create_status_ transport_isOpen transport_attempts].
  destruct (Status.ok (socket_create_status_ c)) eqn:Hs; cbn [negb fst snd].
  - destruct (transport_isOpen c) eqn:Ho; [now split|].
    destruct (transport_open _); [discriminate | now split].
  - congruence.
Qed.

(** X12.  [Open] is idempotent: after a successful [Open], a further [Open]
    returns OK without asking the transport, whatever the network would
    do now.  [Close] is idempotent, and after it the next [Open] asks the
    transport again. *)
Theorem Open_idempotent_until_Close
  (network : nat -> option string) (c : t) :
  Status.ok (fst (Open transport_open c)) = true ->
  fst (Open network (snd (Open transport_open c))) = Status.OK
  /\ transport_attempts (snd (Open network (snd (Open transport_open c))))
     = transport_attempts (snd (Open transport_open c))
  /\ Close (Close (snd (Open transport_open c)))
     = Close (snd (Open transport_open c))
  /\ transport_attempts
       (snd (Open network (Close (snd (Open transport_open c)))))
     = S (transport_attempts (snd (Open transport_open c))).
Proof.
  intros Hok. destruct (Open_succeeded c Hok) as [Hsock Hopen].
  destruct (Open_frame c) as (_ & _ & Hs).
  set (c1 := snd (Open transport_open c)) in *.
  assert (Hs1 : Status.ok (socket_create_status_ c1) = true)
    by now rewrite Hs.
  repeat split.
  - unfold Open. cbn [socket_create_status_ transport_isOpen].
    now rewrite Hs1, Hopen.
  - unfold Open. cbn [socket_create_status_ transport_isOpen].
    now rewrite Hs1, Hopen.
  - unfold Open, Close.
    cbn [socket_create_status_ transport_isOpen transport_attempts].
    rewrite Hs1. cbn [negb]. now destruct (network _).
Qed.

End ThriftClientMoreFacts.

Section ThriftClientRetryCost.

Import ThriftClientImpl.

Variable transport_open : nat -> option string.

Lemma OpenWithRetry_loop_cost (n : nat) :
  forall (fuel : nat) (num_tries wait_ms try_count : Z) (c : t),
    0 <= try_count ->
    try_count + Z.of_nat n = num_tries ->
    num_tries < 2 ^ 32 ->
    (0 < n <= fuel)%nat ->
    exists (i : nat) (c' : t),
      (i < n)%nat
      /\ OpenWithRetry_loop transport_open fuel num_tries wait_ms try_count c
         = Some (Open_nth transport_open i c, c')
      /\ all_fail transport_open i c
      /\ (Status.ok (Open_nth transport_open i c) = true \/ S i = n)
      /\ slept_ms c' = slept_ms c + Z.of_nat i * wait_ms
      /\ length (log_ c')
         = (length (log_ c)
            + failures transport_open i c * lines_per_failure num_tries)%nat.
Proof.
  induction n as [|n IH]; intros fuel num_tries wait_ms try_count c
    Htc Hsum Hmax [Hn Hfuel]; [lia|].
  destruct fuel as [|fuel]; [lia|].
  cbn [OpenWithRetry_loop].
  rewrite to_uint32_nonneg by lia.
  unfold failures.
  pose proof (Open_nth_0 transport_open c) as H0.
  pose proof (Open_frame transport_open c) as (Hslept & Hlog & _).
  apply (f_equal (@length string)) in Hlog.
  pose proof (fun j => Open_nth_S transport_open j c) as HS.
  pose proof (all_fail_S transport_open) as HfailS.
  specialize (HfailS) with (c := c).
  destruct (Open transport_open c) as [status c1]. cbn [fst snd] in *.
  destruct (Status.ok status) eqn:Hok.
  - exists 0%nat, c1. rewrite H0, Hok.
    repeat split; [lia | intros j Hj; lia | now left | lia | lia].
  - destruct (Z.eqb_spec num_tries 0) as [|_]; [lia|].
    match goal with
    | |- context [if try_count + 1 =? num_tries then Some (_, ?c2) else _] =>
        assert (Hequiv : retry_equiv transport_open c1 c2)
          by (destruct (negb (num_tries =? 1));
                auto using retry_equiv_refl, retry_equiv_LOG);
        assert (Hacc : slept_ms c2 = slept_ms c1
                       /\ length (log_ c2)
                          = (length (log_ c1)
                             + lines_per_failure num_tries)%nat)
          by (unfold lines_per_failure;
              destruct (num_tries =? 1); cbn [negb LOG slept_ms log_];
              rewrite ?length_app; cbn [length]; split; lia);
        set (cl := c2) in *
    end.
    destruct Hacc as [Hsl Hll].
    destruct (Z.eqb_spec (try_count + 1) num_tries) as [Hlast|Hmore].
    + exists 0%nat, cl. rewrite H0, Hok.
      repeat split; [lia | intros j Hj; lia | right; lia | lia | lia].
    + assert (Hequiv' : retry_equiv transport_open c1 (SleepForMs wait_ms cl))
        by auto using retry_equiv_SleepForMs.
      destruct (IH fuel num_tries wait_ms (try_count + 1)
                  (SleepForMs wait_ms cl))
        as (i & c' & Hi & Hrun & Hfail & Hend & Hs' & Hl'); try lia.
      destruct Hequiv' as [Hc Hnth].
      exists (S i), c'. rewrite HS, <- Hnth.
      split; [lia|]. split; [exact Hrun|]. split.
      * apply HfailS; [reflexivity|].
        apply (all_fail_equiv transport_open i c1 (SleepForMs wait_ms cl));
          [now split | exact Hfail].
      * split; [destruct Hend as [Hend|Hend]; [now left | right; lia]|].
        unfold failures in Hl'. cbn [SleepForMs slept_ms log_] in Hs', Hl'.
        split; [lia|].
        destruct (Status.ok (Open_nth transport_open i
                               (SleepForMs wait_ms cl))); lia.
Qed.

(** X13.  With [num_tries = k > 0], [OpenWithRetry] sleeps [wait_ms] after
    every failed attempt but the last: having made [i + 1] attempts it has
    slept [i * wait_ms] in all, and never after the attempt it returns
    from.  Each failed attempt logs two lines, or one when [k] is 1. *)
Theorem OpenWithRetry_cost (k wait_ms : Z) (fuel : nat) (c : t) :
  0 < k < 2 ^ 32 ->
  (Z.to_nat k <= fuel)%nat ->
  exists (i : nat) (c' : t),
    (S i <= Z.to_nat k)%nat
    /\ OpenWithRetry transport_open fuel k wait_ms c
       = Some (Open_nth transport_open i c, c')
    /\ all_fail transport_open i c
    /\ slept_ms c' = slept_ms c + Z.of_nat i * wait_ms
    /\ length (log_ c')
       = (length (log_ c) + failures transport_open i c * lines_per_failure k)%nat.
Proof.
  intros Hk Hfuel. unfold OpenWithRetry.
  destruct (OpenWithRetry_loop_cost (Z.to_nat k) fuel k wait_ms 0 c)
    as (i & c' & Hi & Hrun & Hfail & _ & Hs & Hl); try lia.
  exists i, c'. repeat split; assumption.
Qed.

Lemma Open_socket_failed (c : t) :
  Status.ok (socket_create_status_ c) = false ->
  fst (Open transport_open c) = socket_create_status_ c
  /\ transport_attempts (snd (Open transport_open c)) = transport_attempts c
  /\ socket_create_status_ (snd (Open transport_open c))
     = socket_create_status_ c.
Proof.
  intros H. unfold Open. cbn [socket_create_status_]. rewrite H. now cbn.
Qed.

Lemma Open_nth_socket_failed (j : nat) (c : t) :
  Status.ok (socket_create_status_ c) = false ->
  Open_nth transport_open j c = socket_create_status_ c.
Proof.
  revert c. induction j as [|j IH]; intros c H;
    destruct (Open_socket_failed c H) as (H1 & _ & H3).
  - now rewrite Open_nth_0.
  - rewrite Open_nth_S, IH; [exact H3 | now rewrite H3].
Qed.

Lemma OpenWithRetry_loop_socket_failed (fuel : nat) :
  forall (num_tries wait_ms try_count : Z) (c c' : t) (status : Status.t),
    Status.ok (socket_create_status_ c) = false ->
    OpenWithRetry_loop transport_open fuel num_tries wait_ms try_count c
    = Some (status, c') ->
    transport_attempts c' = transport_attempts c.
Proof.
  induction fuel as [|fuel IH]; intros num_tries wait_ms try_count c c' status
    Hs; [discriminate|].
  cbn [OpenWithRetry_loop].
  destruct (Open_socket_failed c Hs) as (H1 & H2 & H3).
  destruct (Open transport_open c) as [st c1]. cbn [fst snd] in *. subst st.
  rewrite Hs.
  destruct (num_tries =? 0).
  - intros Hrun. apply IH in Hrun; [|now rewrite <- H3 in Hs].
    cbn in Hrun. lia.
  - destruct (_ =? num_tries).
    + intros [= _ <-]. now destruct (negb _).
    + intros Hrun. apply IH in Hrun.
      * destruct (negb _); cbn in Hrun; lia.
      * destruct (negb _); cbn; now rewrite H3.
Qed.

(** X14.  On a client whose socket could not be created [Open] fails
    without asking the transport, and [OpenWithRetry] does not tell this
    failure from a refused connection: with [num_tries = k > 0] it makes all
    [k] attempts, sleeping in between, before it returns the status of the
    socket creation; with [num_tries = 0] it never returns. *)
Theorem OpenWithRetry_socket_failed (k wait_ms : Z) (c : t) :
  Status.ok (socket_create_status_ c) = false ->
  (0 < k < 2 ^ 32 ->
   forall fuel : nat,
     (Z.to_nat k <= fuel)%nat ->
     exists c',
       OpenWithRetry transport_open fuel k wait_ms c
       = Some (socket_create_status_ c, c')
       /\ Open_calls c' = (Open_calls c + Z.to_nat k)%nat
       /\ transport_attempts c' = transport_attempts c
       /\ slept_ms c' = slept_ms c + (k - 1) * wait_ms)
  /\ (forall fuel : nat,
        OpenWithRetry transport_open fuel 0 wait_ms c = None).
Proof.
  intros Hs. split.
  - intros Hk fuel Hfuel. unfold OpenWithRetry.
    destruct (OpenWithRetry_loop_cost (Z.to_nat k) fuel k wait_ms 0 c)
      as (i & c' & Hi & Hrun & _ & Hend & Hsl & _); try lia.
    destruct (OpenWithRetry_loop_bounded transport_open (Z.to_nat k) fuel k
                wait_ms 0 c)
      as (i2 & c2 & _ & Hrun2 & Hcalls & Hfail2 & Hend2); try lia.
    pose proof (Open_nth_socket_failed i c Hs) as Ei.
    pose proof (Open_nth_socket_failed i2 c Hs) as Ei2.
    rewrite Ei in Hrun, Hend. rewrite Ei2 in Hrun2, Hend2.
    rewrite Hrun in Hrun2. injection Hrun2 as <-.
    destruct Hend as [Hend|Hend]; [congruence|].
    destruct Hend2 as [Hend2|Hend2]; [congruence|].
    exists c'. split; [exact Hrun|]. split; [lia|]. split.
    + now apply (OpenWithRetry_loop_socket_failed _ _ _ _ _ _ _ Hs Hrun).
    + rewrite Hsl. f_equal. lia.
  - intros fuel. apply OpenWithRetry_loop_forever_fail.
    intros j _. now rewrite Open_nth_socket_failed.
Qed.

End ThriftClientRetryCost.

Section ThriftClientRetryCostExamples.

Import ThriftClientImpl.

Lemma Open_idempotent_until_Close_witness :
  let up := fun _ : nat => @None string in
  let down := fun _ : nat => Some "Connection refused"%string in
  let c := mk "10.0.0.7" 22000 Status.OK false 0 0 0 [] in
  fst (Open down (snd (Open up c))) = Status.OK
  /\ transport_attempts (snd (Open down (snd (Open up c)))) = 1%nat.
Proof.
  intros up down c.
  destruct (Open_idempotent_until_Close up down c eq_refl)
    as (H1 & H2 & _).
  split; [exact H1 | exact H2].
Defined.

Lemma OpenWithRetry_cost_witness :
  let net := fun n : nat =>
               if (n <? 2)%nat then Some "Connection refused"%string
               else None in
  let c := mk "10.0.0.7" 22000 Status.OK false 0 0 0 [] in
  exists (i : nat) (c' : t),
    OpenWithRetry net 5 5 100 c = Some (Open_nth net i c, c')
    /\ slept_ms c' = Z.of_nat i * 100.
Proof.
  intros net c.
  destruct (OpenWithRetry_cost net 5 100 5 c) as (i & c' & _ & Hrun & _ & Hs & _).
  - lia.
  - vm_compute. lia.
  - exists i, c'. split; [exact Hrun | exact Hs].
Defined.

Lemma OpenWithRetry_socket_failed_witness :
  let net := fun _ : nat => @None string in
  let c := mk "10.0.0.7" 22000 (Status.of_msg "Failed to create socket")
              false 0 0 0 [] in
  exists c',
    OpenWithRetry net 3 3 100 c = Some (socket_create_status_ c, c')
    /\ transport_attempts c' = 0%nat
    /\ slept_ms c' = 200.
Proof.
  intros net c.
  destruct (OpenWithRetry_socket_failed net 3 100 c eq_refl) as [Hpos _].
  destruct (Hpos ltac:(lia) 3%nat) as (c' & Hrun & _ & Ht & Hs).
  - vm_compute. lia.
  - exists c'. split; [exact Hrun|]. split; [exact Ht | exact Hs].
Defined.

End ThriftClientRetryCostExamples.

(** ** Counters *)

Section HighWaterMarkMoreFacts.

Import HighWaterMarkCounter.

Lemma TryUpdate_cases (delta max : Z) (c : t) :
  let new_val := Int.wrap64 (current_value_ c + delta) in
  TryUpdate delta max c
  = if new_val >? max then (false, c)
    else (true, mk (Z.max (value_ c) new_val) (type_ c) new_val).
Proof.
  unfold TryUpdate. cbn [TryUpdate_loop]. unfold AtomicInt.Swap.
  rewrite Z.eqb_refl. cbn zeta. now destruct (_ >? _).
Qed.

Lemma run_op_invariant (o : op) (c : t) :
  current_value c <= value c ->
  current_value (run_op o c) <= value (run_op o c)
  /\ value c <= value (run_op o c).
Proof.
  unfold current_value, value. intros Hinv.
  destruct o as [delta|delta max|v]; cbn [run_op].
  - unfold Update, AtomicInt.UpdateMax, AtomicInt.UpdateAndFetch.
    cbn [current_value_ value_]. lia.
  - rewrite TryUpdate_cases. cbn zeta.
    destruct (_ >? _); cbn [snd current_value_ value_]; lia.
  - unfold Set_, AtomicInt.UpdateMax. cbn [current_value_ value_]. lia.
Qed.

(** X15.  [value()] is a high water mark whatever is done to the counter:
    after any sequence of [Update], [TryUpdate] and [Set] calls, overflowing
    or not, [value()] is at least [current_value()], and it has not gone
    down. *)
Theorem HighWaterMarkCounter_invariant (os : list op) (c : t) :
  current_value c <= value c ->
  current_value (run_ops os c) <= value (run_ops os c)
  /\ value c <= value (run_ops os c).
Proof.
  revert c. induction os as [|o os IH]; intros c Hinv; [cbn; lia|].
  cbn [run_ops fold_left].
  destruct (run_op_invariant o c Hinv) as [H1 H2].
  destruct (IH (run_op o c) H1) as [H3 H4]. unfold run_ops in *.
  split; [exact H3 | lia].
Qed.

Lemma HighWaterMarkCounter_invariant_witness :
  let os := [OpUpdate 7; OpTryUpdate 5 10; OpSet (-3); OpUpdate (2 ^ 63)] in
  let c := new TCounterType.BYTES in
  current_value c <= value c
  /\ current_value (run_ops os c) <= value (run_ops os c).
Proof.
  intros os c.
  assert (H : current_value c <= value c) by (cbn; lia).
  split; [exact H|].
  apply (HighWaterMarkCounter_invariant os c H).
Defined.

(** X16.  A counter changed by [TryUpdate(., max)] only stays within
    [max]: from a current value and a peak of at most [max], any run of
    [TryUpdate] calls with that bound leaves both at most [max], whatever
    the deltas; a call that would go beyond returns false and changes
    nothing. *)
Theorem TryUpdate_never_exceeds_max (deltas : list Z) (max : Z) (c : t) :
  current_value c <= max ->
  value c <= max ->
  let c' := run_ops (List.map (fun d => OpTryUpdate d max) deltas) c in
  current_value c' <= max /\ value c' <= max.
Proof.
  revert c. induction deltas as [|d deltas IH]; intros c Hcur Hval;
    [cbn; lia|].
  cbn [List.map run_ops fold_left run_op]. apply IH.
  - rewrite TryUpdate_cases. cbn zeta. unfold current_value in *.
    destruct (Z.gtb_spec (Int.wrap64 (current_value_ c + d)) max);
      cbn [snd current_value_]; lia.
  - rewrite TryUpdate_cases. cbn zeta. unfold value in *.
    destruct (Z.gtb_spec (Int.wrap64 (current_value_ c + d)) max);
      cbn [snd value_]; lia.
Qed.

Lemma TryUpdate_never_exceeds_max_witness :
  let c := new TCounterType.BYTES in
  let c' := run_ops (List.map (fun d => OpTryUpdate d 100) [60; 50; 30; -20; 40]) c in
  current_value c' <= 100 /\ value c' <= 100.
Proof.
  intros c.
  apply (TryUpdate_never_exceeds_max [60; 50; 30; -20; 40] 100 c);
    cbn; lia.
Defined.

Lemma running_app (xs ys : list Z) (cur : Z) :
  running cur (xs ++ ys) = running (running cur xs) ys.
Proof.
  revert cur. induction xs as [|x xs IH]; intros cur; [reflexivity|].
  cbn [app running]. apply IH.
Qed.

Lemma peak_bounds (deltas : list Z) (hwm cur : Z) :
  (forall k : nat, running cur (take (S k) deltas) <= peak hwm cur deltas
                   \/ (length deltas <= k)%nat)
  /\ (peak hwm cur deltas = hwm
      \/ exists k : nat,
           (k < length deltas)%nat
           /\ peak hwm cur deltas = running cur (take (S k) deltas)).
Proof.
  revert hwm cur. induction deltas as [|d ds IH]; intros hwm cur.
  - split; [intros k; right; cbn; lia | now left].
  - cbn [peak]. destruct (IH (Z.max hwm (cur + d)) (cur + d)) as [IH1 IH2].
    pose proof (peak_ge ds (Z.max hwm (cur + d)) (cur + d)) as Hge.
    split.
    + intros [|k].
      * left. cbn [take running]. rewrite take_0. cbn [running]. lia.
      * destruct (IH1 k) as [H|H]; [left | right; cbn [length]; lia].
        cbn [take running]. exact H.
    + destruct IH2 as [H|(k & Hk & H)].
      * destruct (Z.max_spec hwm (cur + d)) as [[_ Hm]|[_ Hm]].
        -- right. exists 0%nat. split; [cbn; lia|].
           cbn [take running]. rewrite take_0. cbn [running]. lia.
        -- left. lia.
      * right. exists (S k). split; [cbn [length]; lia|].
        cbn [take running]. exact H.
Qed.

(** X17.  On a new counter a run of updates that never overflows leaves
    their sum in [current_value()], and in [value()] the largest value the
    current value has had, 0 at creation included: [value()] is at least
    every intermediate sum, and it is 0 or one of them. *)
Theorem HighWaterMarkCounter_tracks_peak
  (type : TCounterType.type) (deltas : list Z) :
  no_overflow 0 deltas ->
  let c := Update_seq deltas (new type) in
  current_value c = running 0 deltas
  /\ 0 <= value c
  /\ (forall k : nat,
        (k <= length deltas)%nat -> running 0 (take k deltas) <= value c)
  /\ (value c = 0
      \/ exists k : nat,
           (k <= length deltas)%nat
           /\ value c = running 0 (take k deltas)).
Proof.
  intros Hno c.
  destruct (Update_seq_running_peak deltas (new type) Hno) as [Hcur Hval].
  cbn [new current_value value current_value_ value_] in Hcur, Hval.
  fold c in Hcur, Hval. fold (value c) in Hval. fold (current_value c) in Hcur.
  destruct (peak_bounds deltas 0 0) as [Hall Hex].
  pose proof (peak_ge deltas 0 0) as Hge.
  split; [exact Hcur|]. split; [lia|]. split.
  - intros [|k] Hk.
    + rewrite take_0. cbn [running]. lia.
    + destruct (Hall k) as [H|H]; lia.
  - destruct Hex as [H|(k & Hk & H)]; [left; lia|].
    right. exists (S k). split; [lia|]. lia.
Qed.

Lemma HighWaterMarkCounter_tracks_peak_witness :
  let c := Update_seq [3; 2; -4; 1] (new TCounterType.UNIT) in
  current_value c = running 0 [3; 2; -4; 1]
  /\ running 0 (take 2 [3; 2; -4; 1]) <= value c.
Proof.
  intros c.
  assert (Hno : no_overflow 0 [3; 2; -4; 1])
    by (cbn; unfold Int.in_int64; lia).
  destruct (HighWaterMarkCounter_tracks_peak TCounterType.UNIT
              [3; 2; -4; 1] Hno) as (Hcur & _ & Hall & _).
  split; [exact Hcur|]. apply (Hall 2%nat). cbn. lia.
Defined.

End HighWaterMarkMoreFacts.

Section ScopedCounterFacts.

Lemma wrap64_range (z : Z) : Int.in_int64 (Int.wrap64 z).
Proof.
  unfold Int.in_int64, Int.wrap64.
  pose proof (Z.mod_pos_bound (z + 2 ^ 63) (2 ^ 64) ltac:(lia)). lia.
Qed.

Lemma wrap64_add_l (a b : Z) :
  Int.wrap64 (Int.wrap64 a + b) = Int.wrap64 (a + b).
Proof.
  unfold Int.wrap64. f_equal.
  replace ((a + 2 ^ 63) mod 2 ^ 64 - 2 ^ 63 + b + 2 ^ 63)
    with ((a + 2 ^ 63) mod 2 ^ 64 + b) by lia.
  rewrite Zplus_mod_idemp_l. f_equal. lia.
Qed.

Lemma wrap64_add_r (a b : Z) :
  Int.wrap64 (a + Int.wrap64 b) = Int.wrap64 (a + b).
Proof. rewrite Z.add_comm, wrap64_add_l. f_equal. lia. Qed.

Lemma Counter_Update_seq_shift (deltas : list Z) (x : Z) :
  forall c1 c2 : Counter.t,
    RuntimeProfile.type_ c1 = RuntimeProfile.type_ c2 ->
    Counter.value c1 = Int.wrap64 (Counter.value c2 + x) ->
    RuntimeProfile.type_ (Counter.Update_seq deltas c1)
    = RuntimeProfile.type_ (Counter.Update_seq deltas c2)
    /\ Counter.value (Counter.Update_seq deltas c1)
       = Int.wrap64 (Counter.value (Counter.Update_seq deltas c2) + x).
Proof.
  induction deltas as [|d ds IH]; intros c1 c2 Ht Hv; [now split|].
  cbn [Counter.Update_seq fold_left]. apply IH.
  - exact Ht.
  - unfold Counter.Update, Counter.value in *.
    cbn [RuntimeProfile.value_]. rewrite Hv, !wrap64_add_l.
    f_equal. lia.
Qed.

Lemma Counter_Update_seq_range (deltas : list Z) (c : Counter.t) :
  Int.in_int64 (Counter.value c) ->
  Int.in_int64 (Counter.value (Counter.Update_seq deltas c)).
Proof.
  revert c. induction deltas as [|d ds IH]; intros c Hc; [exact Hc|].
  cbn [Counter.Update_seq fold_left]. apply IH.
  unfold Counter.Update, Counter.value. cbn [RuntimeProfile.value_].
  apply wrap64_range.
Qed.

Lemma HWM_Update_seq_shift (deltas : list Z) (x : Z) :
  forall h1 h2 : HighWaterMarkCounter.t,
    HighWaterMarkCounter.current_value h1
    = Int.wrap64 (HighWaterMarkCounter.current_value h2 + x) ->
    HighWaterMarkCounter.current_value
      (HighWaterMarkCounter.Update_seq deltas h1)
    = Int.wrap64
        (HighWaterMarkCounter.current_value
           (HighWaterMarkCounter.Update_seq deltas h2) + x).
Proof.
  induction deltas as [|d ds IH]; intros h1 h2 Hv; [exact Hv|].
  cbn [HighWaterMarkCounter.Update_seq fold_left]. apply IH.
  rewrite !Update_current, Hv, !wrap64_add_l. f_equal. lia.
Qed.

Lemma HWM_Update_seq_range (deltas : list Z) (h : HighWaterMarkCounter.t) :
  Int.in_int64 (HighWaterMarkCounter.current_value h) ->
  Int.in_int64
    (HighWaterMarkCounter.current_value
       (HighWaterMarkCounter.Update_seq deltas h)).
Proof.
  revert h. induction deltas as [|d ds IH]; intros h Hh; [exact Hh|].
  cbn [HighWaterMarkCounter.Update_seq fold_left]. apply IH.
  rewrite Update_current. apply wrap64_range.
Qed.

Lemma AnyCounter_Update_seq_Plain (deltas : list Z) (c : Counter.t) :
  AnyCounter.Update_seq deltas (AnyCounter.Plain c)
  = AnyCounter.Plain (Counter.Update_seq deltas c).
Proof.
  revert c. induction deltas as [|d ds IH]; intros c; [reflexivity|].
  cbn [AnyCounter.Update_seq Counter.Update_seq fold_left AnyCounter.Update].
  apply IH.
Qed.

Lemma AnyCounter_Update_seq_HighWaterMark
      (deltas : list Z) (h : HighWaterMarkCounter.t) :
  AnyCounter.Update_seq deltas (AnyCounter.HighWaterMark h)
  = AnyCounter.HighWaterMark (HighWaterMarkCounter.Update_seq deltas h).
Proof.
  revert h. induction deltas as [|d ds IH]; intros h; [reflexivity|].
  cbn [AnyCounter.Update_seq HighWaterMarkCounter.Update_seq fold_left
       AnyCounter.Update].
  apply IH.
Qed.

Lemma HWM_Update_seq_type (deltas : list Z) (h : HighWaterMarkCounter.t) :
  HighWaterMarkCounter.type_ (HighWaterMarkCounter.Update_seq deltas h)
  = HighWaterMarkCounter.type_ h.
Proof.
  revert h. induction deltas as [|d ds IH]; intros h; [reflexivity|].
  cbn [HighWaterMarkCounter.Update_seq fold_left]. now rewrite IH.
Qed.

Lemma AnyCounter_Update_seq_Derived
      (deltas : list Z) (c : Counter.t) (fn : unit -> Z) :
  AnyCounter.Update_seq deltas (AnyCounter.Derived c fn)
  = AnyCounter.Derived (Counter.Update_seq deltas c) fn.
Proof.
  revert c. induction deltas as [|d ds IH]; intros c; [reflexivity|].
  cbn [AnyCounter.Update_seq Counter.Update_seq fold_left AnyCounter.Update].
  apply IH.
Qed.

Lemma Counter_scope_restores (val : Z) (deltas : list Z) (c : Counter.t) :
  Int.in_int64 (Counter.value c) ->
  Counter.Update val
    (Counter.Update_seq deltas (Counter.Update (Int.wrap64 (-1 * val)) c))
  = Counter.Update_seq deltas c.
Proof.
  intros Hc.
  set (c1 := Counter.Update (Int.wrap64 (-1 * val)) c).
  destruct (Counter_Update_seq_shift deltas (- val) c1 c) as [Ht Hv].
  { reflexivity. }
  { subst c1. unfold Counter.Update, Counter.value.
    cbn [RuntimeProfile.value_]. rewrite wrap64_add_r. f_equal. }
  pose proof (Counter_Update_seq_range deltas c Hc) as Hr.
  unfold Counter.value in *.
  destruct (Counter.Update_seq deltas c1) as [v1 t1].
  destruct (Counter.Update_seq deltas c) as [v2 t2].
  unfold Counter.Update.
  cbn [RuntimeProfile.value_ RuntimeProfile.type_] in *.
  subst t1 v1. f_equal.
  rewrite wrap64_add_l. rewrite <- (wrap64_in_range v2 Hr) at 2.
  f_equal. lia.
Qed.

(** X18.  A [ScopedCounter] on a plain [Counter] leaves no trace: whatever
    updates the counter receives while the scope is open, at the end of the
    scope the counter is what those updates alone would have made it,
    wrap-around included; the same holds of a [DerivedCounter], whose
    [value()] does not read the stored value at all.  On a
    [HighWaterMarkCounter], reached through the virtual [Update], the scope
    likewise restores the current value, but it does not promise the peak,
    which has followed the lowered values.  On a null counter neither end of
    the scope does anything. *)
Theorem ScopedCounter_leaves_no_trace
  (val : Z) (deltas : list Z) (c : Counter.t) (h : HighWaterMarkCounter.t) :
  Int.in_int64 (Counter.value c) ->
  Int.in_int64 (HighWaterMarkCounter.current_value h) ->
  ScopedCounter.destruct_ val
    (AnyCounter.Update_seq deltas
       <$> ScopedCounter.construct val (Some (AnyCounter.Plain c)))
  = Some (AnyCounter.Plain (Counter.Update_seq deltas c))
  /\ (forall fn : unit -> Z,
        ScopedCounter.destruct_ val
          (AnyCounter.Update_seq deltas
             <$> ScopedCounter.construct val (Some (AnyCounter.Derived c fn)))
        = Some (AnyCounter.Derived (Counter.Update_seq deltas c) fn))
  /\ (exists h' : HighWaterMarkCounter.t,
        ScopedCounter.destruct_ val
          (AnyCounter.Update_seq deltas
             <$> ScopedCounter.construct val
                   (Some (AnyCounter.HighWaterMark h)))
        = Some (AnyCounter.HighWaterMark h')
        /\ HighWaterMarkCounter.current_value h'
           = HighWaterMarkCounter.current_value
               (HighWaterMarkCounter.Update_seq deltas h)
        /\ HighWaterMarkCounter.type_ h' = HighWaterMarkCounter.type_ h
        /\ HighWaterMarkCounter.current_value h'
           <= HighWaterMarkCounter.value h')
  /\ ScopedCounter.construct val None = None
  /\ ScopedCounter.destruct_ val None = None.
Proof.
  intros Hc Hh. split; [|split; [|split; [|now split]]].
  - cbn [ScopedCounter.construct fmap option_fmap option_map
         ScopedCounter.destruct_ AnyCounter.Update].
    rewrite AnyCounter_Update_seq_Plain. cbn [AnyCounter.Update].
    now rewrite Counter_scope_restores.
  - intros fn.
    cbn [ScopedCounter.construct fmap option_fmap option_map
         ScopedCounter.destruct_ AnyCounter.Update].
    rewrite AnyCounter_Update_seq_Derived. cbn [AnyCounter.Update].
    now rewrite Counter_scope_restores.
  - cbn [ScopedCounter.construct fmap option_fmap option_map
         ScopedCounter.destruct_ AnyCounter.Update].
    rewrite AnyCounter_Update_seq_HighWaterMark. cbn [AnyCounter.Update].
    eexists. split; [reflexivity|].
    set (h1 := HighWaterMarkCounter.Update (Int.wrap64 (-1 * val)) h).
    pose proof (HWM_Update_seq_shift deltas (- val) h1 h) as Hv.
    pose proof (HWM_Update_seq_range deltas h Hh) as Hr.
    split; [|split].
    + rewrite Update_current, Hv.
      * rewrite wrap64_add_l.
        rewrite <- (wrap64_in_range _ Hr) at 2. f_equal. lia.
      * subst h1. rewrite Update_current, wrap64_add_r. f_equal.
    + change (HighWaterMarkCounter.type_
                (HighWaterMarkCounter.Update_seq deltas h1)
              = HighWaterMarkCounter.type_ h).
      now rewrite HWM_Update_seq_type.
    + rewrite Update_value. lia.
Qed.

Lemma ScopedCounter_leaves_no_trace_witness :
  let c := RuntimeProfile.mkCounter 10 TCounterType.UNIT in
  let h := HighWaterMarkCounter.new TCounterType.BYTES in
  ScopedCounter.destruct_ 4
    (AnyCounter.Update_seq [5; -2]
       <$> ScopedCounter.construct 4 (Some (AnyCounter.Plain c)))
  = Some (AnyCounter.Plain (RuntimeProfile.mkCounter 13 TCounterType.UNIT)).
Proof.
  intros c h.
  assert (Hc : Int.in_int64 (Counter.value c))
    by (cbn; unfold Int.in_int64; lia).
  assert (Hh : Int.in_int64 (HighWaterMarkCounter.current_value h))
    by (cbn; unfold Int.in_int64; lia).
  destruct (ScopedCounter_leaves_no_trace 4 [5; -2] c h Hc Hh) as [H _].
  exact H.
Defined.

(** The peak of a [HighWaterMarkCounter] is not restored: with [val = 4]
    around the updates +5 and -5, [value()] ends at 1, against 5 without the
    scope; the current value is 0 either way. *)
Lemma ScopedCounter_hides_peak :
  let h := HighWaterMarkCounter.new TCounterType.BYTES in
  ScopedCounter.destruct_ 4
    (AnyCounter.Update_seq [5; -5]
       <$> ScopedCounter.construct 4 (Some (AnyCounter.HighWaterMark h)))
  = Some (AnyCounter.HighWaterMark
            (HighWaterMarkCounter.mk 1 TCounterType.BYTES 0))
  /\ HighWaterMarkCounter.Update_seq [5; -5] h
     = HighWaterMarkCounter.mk 5 TCounterType.BYTES 0.
Proof. split; reflexivity. Qed.

End ScopedCounterFacts.

(** ** EventSequence *)

Section EventSequenceFacts.

Import EventSequence.

Lemma from_thrift_enough_labels (timestamps : list Z) (labels : list string) :
  forall (i : nat) (events_ : EventList),
    (i + length timestamps <= length labels)%nat ->
    from_thrift timestamps labels i events_
    = Some (events_
              ++ zip (take (length timestamps) (drop i labels)) timestamps).
Proof.
  induction timestamps as [|ts rest IH]; intros i events_ Hlen.
  - cbn. now rewrite app_nil_r.
  - cbn [from_thrift length] in *.
    destruct (lookup_lt_is_Some_2 labels i) as [label Hl]; [lia|].
    rewrite Hl, IH by lia. f_equal. rewrite <- app_assoc. f_equal.
    rewrite (drop_S _ _ _ Hl). reflexivity.
Qed.

Lemma from_thrift_missing_label (timestamps : list Z) (labels : list string) :
  forall (i : nat) (events_ : EventList),
    (i <= length labels < i + length timestamps)%nat ->
    from_thrift timestamps labels i events_ = None.
Proof.
  induction timestamps as [|ts rest IH]; intros i events_ Hlen;
    cbn [from_thrift length] in *; [lia|].
  destruct (labels !! i) as [label|] eqn:Hl; [|reflexivity].
  apply IH. apply lookup_lt_Some in Hl. lia.
Qed.

(** X19.  The constructor from Thrift pairs the timestamps with the labels
    at the same positions: with as many labels as timestamps the events
    give back both lists, in order; labels beyond the last timestamp are
    ignored; with fewer labels than timestamps the loop reads past the end
    of the labels. *)
Theorem EventSequence_from_thrift
  (timestamps : list Z) (labels : list string) :
  ((length timestamps <= length labels)%nat ->
   exists events_,
     new_from_thrift timestamps labels = Some events_
     /\ events_.*2 = timestamps
     /\ events_.*1 = take (length timestamps) labels)
  /\ ((length labels < length timestamps)%nat ->
      new_from_thrift timestamps labels = None).
Proof.
  unfold new_from_thrift. split; intros Hlen.
  - rewrite from_thrift_enough_labels by (cbn; lia).
    eexists. split; [reflexivity|]. rewrite drop_0. cbn [app]. split.
    + apply snd_zip. rewrite length_take. lia.
    + apply fst_zip. rewrite length_take. lia.
  - apply from_thrift_missing_label. lia.
Qed.

Lemma EventSequence_from_thrift_witness :
  new_from_thrift [10; 25] ["Start"; "Planned"; "Extra"]%string
  = Some [("Start", 10); ("Planned", 25)]%string
  /\ new_from_thrift [10; 25] ["Start"]%string = None.
Proof.
  destruct (EventSequence_from_thrift [10; 25] ["Start"]%string)
    as [_ Hshort].
  split; [reflexivity|]. apply Hshort. cbn. lia.
Defined.

End EventSequenceFacts.

(** ** Project: more on init, map and parseInput *)

Section ProjectMoreFacts.

Import Project.

(** X20.  [init] does not roll back: when an entry is rejected, [projlist]
    keeps what it held plus the indices of the entries accepted before that
    entry, and the entries after it are not looked at.  The exception is
    [InvalidParameter] exactly when [parseInput] returned -1 or less. *)
Theorem init_keeps_accepted_prefix
  (pre post : list string) (e : string) (cols : Z) (projlist : list Z) :
  Forall (accepted cols) pre ->
  ~ accepted cols e ->
  exists exn,
    init (pre ++ e :: post) cols projlist
    = (projlist ++ List.map parseInput pre, Some exn)
    /\ exn = (if parseInput e <=? -1 then InvalidParameter
              else IllegalSchemaDeclarationException).
Proof.
  intros Hpre He. rewrite (init_accepted_prefix _ _ _ _ Hpre). cbn [init].
  pose proof (parseInput_range e) as Hr. unfold Int.INT_MAX in Hr.
  unfold accepted in He.
  destruct (Z.leb_spec (parseInput e) (-1)); [now eexists|].
  rewrite to_uint32_nonneg by lia.
  destruct (Z.geb_spec (parseInput e) cols); [now eexists | lia].
Qed.

Lemma init_keeps_accepted_prefix_witness :
  init (["$1"%string; "$0"%string] ++ "$7"%string :: ["nonsense"%string])
       3 [2]
  = ([2; 1; 0], Some IllegalSchemaDeclarationException).
Proof.
  destruct (init_keeps_accepted_prefix ["$1"; "$0"]%string
              ["nonsense"]%string "$7" 3 [2])
    as (exn & Hrun & Hexn).
  - repeat match goal with |- Forall _ _ => constructor end;
      unfold accepted; vm_compute; (split; [discriminate | reflexivity]).
  - unfold accepted. vm_compute. intros [_ H]. discriminate.
  - rewrite Hrun, Hexn. reflexivity.
Defined.

(** X21.  [map] and [mapinit] agree: if the input tuple conforms to the
    source schema, column by column, and [mapinit] could build the output
    schema, then [map] builds the output tuple and it conforms to the
    output schema. *)
Theorem Project_map_conforms
  {A V : Type} (conforms : A -> V -> Prop)
  (srcschema schema : list A) (tuple : list V) (projlist : list Z) :
  Forall2 conforms srcschema tuple ->
  mapinit srcschema projlist = Some schema ->
  exists out, map tuple projlist = Some out /\ Forall2 conforms schema out.
Proof.
  intros Hconf Hinit. unfold mapinit, map in *.
  apply mapM_Some in Hinit.
  induction Hinit as [|p a projlist schema Hp _ (out & Hout & Hall)].
  - exists []. split; [reflexivity | constructor].
  - unfold column in Hp. destruct (p <? 0) eqn:Hneg; [discriminate|].
    destruct (Forall2_lookup_l _ _ _ _ _ Hconf Hp) as (v & Hv & Hav).
    exists (v :: out). split; [|now constructor].
    apply mapM_Some. constructor.
    + unfold column. now rewrite Hneg.
    + now apply mapM_Some.
Qed.

Lemma Project_map_conforms_witness :
  let conforms := fun (width : nat) (v : string) => String.length v = width in
  exists out,
    map ["ab"; "c"; "def"]%string [2; 0] = Some out
    /\ Forall2 conforms [3; 2]%nat out.
Proof.
  intros conforms.
  apply (Project_map_conforms conforms [2; 1; 3]%nat [3; 2]%nat
           ["ab"; "c"; "def"]%string [2; 0]).
  - repeat constructor.
  - reflexivity.
Defined.

Lemma column_of_map {V} (tuple t1 : list V) (p1 : list Z) (q : Z) :
  map tuple p1 = Some t1 ->
  column t1 q = column p1 q ≫= column tuple.
Proof.
  intros Hmap. apply mapM_Some in Hmap.
  destruct (Z.ltb_spec q 0) as [Hq|Hq].
  - unfold column. apply Z.ltb_lt in Hq. now rewrite Hq.
  - assert (Hc : forall (B : Type) (l : list B),
              column l q = l !! Z.to_nat q).
    { intros B l. unfold column.
      destruct (Z.ltb_spec q 0); [lia | reflexivity]. }
    rewrite !Hc. destruct (p1 !! Z.to_nat q) as [p|] eqn:Hp.
    + destruct (Forall2_lookup_l _ _ _ _ _ Hmap Hp) as (v & Hv & Hpv).
      cbn. now rewrite Hv, Hpv.
    + cbn. apply lookup_ge_None. apply lookup_ge_None in Hp.
      apply Forall2_length in Hmap. lia.
Qed.

(** X22.  Projections compose: projecting the output of a projection [p1]
    by [p2] is projecting the input by the list that [p2] selects from [p1],
    and fails exactly when that does. *)
Theorem Project_map_compose
  {V : Type} (tuple t1 : list V) (p1 p2 : list Z) :
  map tuple p1 = Some t1 ->
  map t1 p2 = map p1 p2 ≫= map tuple.
Proof.
  intros Hmap. pose proof (column_of_map tuple t1 p1) as Hcol.
  specialize (Hcol) with (1 := Hmap). unfold map in *. clear Hmap.
  induction p2 as [|q p2 IH]; [reflexivity|].
  cbn [mapM]. rewrite IH, Hcol.
  destruct (column p1 q) as [p|]; [|reflexivity].
  destruct (mapM (column p1) p2) as [ps|]; [reflexivity|].
  cbn. now destruct (column tuple p).
Qed.

Lemma Project_map_compose_witness :
  map ["a"; "b"; "c"]%string [2; 0] = Some ["c"; "a"]%string
  /\ map ["c"; "a"]%string [1; 1; 0]
     = map [2; 0] [1; 1; 0] ≫= map ["a"; "b"; "c"]%string.
Proof.
  assert (H1 : map ["a"; "b"; "c"]%string [2; 0] = Some ["c"; "a"]%string)
    by reflexivity.
  split; [exact H1|].
  exact (Project_map_compose _ _ _ [1; 1; 0] H1).
Defined.

(** X23.  Projecting every column in order is the identity, and projecting
    nothing gives the empty tuple. *)
Theorem Project_map_identity {V : Type} (tuple : list V) :
  map tuple (seqZ 0 (columns tuple)) = Some tuple
  /\ map tuple [] = Some [].
Proof.
  split; [|reflexivity]. unfold map, columns. apply mapM_Some.
  apply Forall2_same_length_lookup_2.
  - rewrite length_seqZ. lia.
  - intros i p v Hp Hv. apply lookup_seqZ in Hp as [-> Hi].
    unfold column. destruct (Z.ltb_spec (0 + Z.of_nat i) 0); [lia|].
    now replace (Z.to_nat (0 + Z.of_nat i)) with i by lia.
Qed.

End ProjectMoreFacts.

Section ParseInputDecimal.

Import Project.

Lemma after_dollar_prefix (pre rest : string) :
  (forall c, In c (list_ascii_of_string pre) -> c <> "$"%char) ->
  after_dollar (pre +:+ String "$"%char rest) = Some rest.
Proof.
  induction pre as [|c pre IH]; intros H.
  - reflexivity.
  - change (String c pre +:+ String "$"%char rest)
      with (String c (pre +:+ String "$"%char rest)).
    cbn [after_dollar]. destruct (Ascii.eqb_spec c "$"%char) as [->|_].
    + exfalso. apply (H "$"%char); [now left | reflexivity].
    + apply IH. intros c' Hc'. apply H. now right.
Qed.

Lemma N_lt_10_cases (d : N) :
  (d < 10)%N ->
  d = 0%N \/ d = 1%N \/ d = 2%N \/ d = 3%N \/ d = 4%N \/ d = 5%N
  \/ d = 6%N \/ d = 7%N \/ d = 8%N \/ d = 9%N.
Proof. lia. Qed.

Lemma digit_pretty_N_char (d : N) :
  (d < 10)%N -> digit (pretty_N_char d) = Some (Z.of_N d).
Proof.
  intros H. destruct (N_lt_10_cases d H)
    as [->|[->|[->|[->|[->|[->|[->|[->|[->| ->]]]]]]]]]; reflexivity.
Qed.

Lemma digits_stop (s : string) (acc : option Z) :
  no_digit_ahead s -> digits s acc = acc.
Proof. destruct s as [|c s]; cbn; [reflexivity | now intros ->]. Qed.

Lemma pretty_N_go_app (x : N) :
  forall s t : string, pretty_N_go x s +:+ t = pretty_N_go x (s +:+ t).
Proof.
  induction (N.lt_wf_0 x) as [x _ IH]; intros s t.
  destruct (N.eq_dec x 0%N) as [->|Hx].
  - now rewrite !pretty_N_go_0.
  - rewrite (pretty_N_go_step x s), (pretty_N_go_step x (s +:+ t)) by lia.
    rewrite IH; [reflexivity|]. apply N.div_lt; lia.
Qed.

(** Reading the digits of [x] multiplies what was read before by a power of
    ten and adds [x]. *)
Lemma digits_pretty_N_go (x : N) :
  (0 < x)%N ->
  exists m : Z,
    forall (s : string) (acc : option Z),
      digits (pretty_N_go x s) acc
      = digits s (Some (m * default 0 acc + Z.of_N x)).
Proof.
  induction (N.lt_wf_0 x) as [x _ IH]; intros Hx.
  assert (Hd : (x `mod` 10 < 10)%N) by (apply N.mod_lt; lia).
  assert (Hdm : Z.of_N x = 10 * Z.of_N (x `div` 10)%N + Z.of_N (x `mod` 10)%N).
  { rewrite (N.div_mod x 10) at 1 by lia. lia. }
  destruct (N.eq_dec (x `div` 10)%N 0%N) as [H0|Hpos].
  - exists 10. intros s acc.
    rewrite pretty_N_go_step, H0, pretty_N_go_0 by lia.
    cbn [digits]. rewrite digit_pretty_N_char by exact Hd.
    rewrite H0 in Hdm. f_equal. f_equal. lia.
  - destruct (IH (x `div` 10)%N) as [m Hm]; [apply N.div_lt; lia | lia|].
    exists (10 * m). intros s acc.
    rewrite pretty_N_go_step, Hm by lia.
    cbn [digits]. rewrite digit_pretty_N_char by exact Hd.
    unfold default at 1. cbn [from_option id]. f_equal. f_equal. lia.
Qed.

Lemma pretty_N_go_head (x : N) :
  (0 < x)%N ->
  forall s : string,
    exists (d : N) (rest : string),
      (d < 10)%N /\ pretty_N_go x s = String (pretty_N_char d) rest.
Proof.
  induction (N.lt_wf_0 x) as [x _ IH]; intros Hx s.
  rewrite pretty_N_go_step by lia.
  destruct (N.eq_dec (x `div` 10)%N 0%N) as [H0|Hpos].
  - rewrite H0, pretty_N_go_0. eexists _, _. split; [|reflexivity].
    apply N.mod_lt; lia.
  - apply IH; [apply N.div_lt; lia | now apply N.neq_0_lt_0].
Qed.

(** On a string that starts with a digit there is no white space to skip
    and no sign. *)
Lemma extract_int_digit_head (d : N) (rest : string) :
  (d < 10)%N ->
  extract_int (String (pretty_N_char d) rest)
  = match digits (String (pretty_N_char d) rest) None with
    | None => None
    | Some v =>
        if (Int.INT_MIN <=? v) && (v <=? Int.INT_MAX) then Some v else None
    end.
Proof.
  intros H. destruct (N_lt_10_cases d H)
    as [->|[->|[->|[->|[->|[->|[->|[->|[->| ->]]]]]]]]]; reflexivity.
Qed.

Lemma extract_int_positive (x : N) (post : string) :
  (0 < x)%N -> Z.of_N x <= Int.INT_MAX -> no_digit_ahead post ->
  extract_int (pretty_N_go x post) = Some (Z.of_N x).
Proof.
  intros Hx Hmax Hpost.
  destruct (pretty_N_go_head x Hx post) as (d & rest & Hd & Hhead).
  destruct (digits_pretty_N_go x Hx) as [m Hm].
  rewrite Hhead, extract_int_digit_head by exact Hd.
  rewrite <- Hhead, Hm, digits_stop by exact Hpost.
  unfold default. cbn [from_option id].
  replace (m * 0 + Z.of_N x) with (Z.of_N x) by lia.
  unfold Int.INT_MIN, Int.INT_MAX in *.
  destruct (Z.leb_spec (- 2 ^ 31) (Z.of_N x)); [|lia].
  destruct (Z.leb_spec (Z.of_N x) (2 ^ 31 - 1)); [reflexivity | lia].
Qed.

Lemma extract_int_negative (x : N) (post : string) :
  (0 < x)%N -> Int.INT_MIN <= - Z.of_N x -> no_digit_ahead post ->
  extract_int (String "-"%char (pretty_N_go x post)) = Some (- Z.of_N x).
Proof.
  intros Hx Hmin Hpost.
  destruct (digits_pretty_N_go x Hx) as [m Hm].
  unfold extract_int. cbn [skipws isspace nat_of_ascii].
  change (isspace "-"%char) with false. cbn match.
  rewrite Hm, digits_stop by exact Hpost.
  unfold default. cbn [from_option id].
  replace (m * 0 + Z.of_N x) with (Z.of_N x) by lia.
  unfold Int.INT_MIN, Int.INT_MAX in *.
  destruct (Z.leb_spec (- 2 ^ 31) (- Z.of_N x)); [|lia].
  destruct (Z.leb_spec (- Z.of_N x) (2 ^ 31 - 1)); [reflexivity | lia].
Qed.

(** X24.  [parseInput] reads decimal notation: for every [int] [z], the
    text made of anything without a dollar sign, a dollar sign, [z] in
    decimal, and anything that does not start with a digit, parses to [z].
    What precedes the dollar sign and what follows the number are
    ignored. *)
Theorem parseInput_reads_decimal (pre post : string) (z : Z) :
  (forall c, In c (list_ascii_of_string pre) -> c <> "$"%char) ->
  Int.INT_MIN <= z <= Int.INT_MAX ->
  no_digit_ahead post ->
  parseInput (pre +:+ String "$"%char (pretty z +:+ post)) = z.
Proof.
  intros Hpre Hz Hpost. unfold parseInput.
  rewrite (after_dollar_prefix _ _ Hpre).
  destruct z as [|p|p]; unfold pretty, pretty_Z.
  - change ("0" +:+ post) with (String (pretty_N_char 0) post).
    rewrite extract_int_digit_head by lia.
    cbn [digits pretty_N_char]. change (digit "0"%char) with (Some 0).
    cbn match. now rewrite digits_stop.
  - unfold pretty, pretty_positive, pretty, pretty_N.
    destruct (decide (N.pos p = 0%N)) as [|_]; [discriminate|].
    rewrite pretty_N_go_app. change (EmptyString +:+ post) with post.
    rewrite extract_int_positive; [reflexivity | lia | | exact Hpost].
    destruct Hz as [_ Hz]. exact Hz.
  - unfold pretty, pretty_positive, pretty, pretty_N.
    destruct (decide (N.pos p = 0%N)) as [|_]; [discriminate|].
    change (("-" +:+ pretty_N_go (N.pos p) EmptyString) +:+ post)
      with (String "-"%char (pretty_N_go (N.pos p) EmptyString +:+ post)).
    rewrite pretty_N_go_app. change (EmptyString +:+ post) with post.
    rewrite extract_int_negative; [reflexivity | lia | | exact Hpost].
    destruct Hz as [Hz _]. exact Hz.
Qed.

Lemma parseInput_reads_decimal_witness :
  parseInput ("column " +:+ String "$"%char (pretty 42 +:+ " (price)")) = 42.
Proof.
  apply (parseInput_reads_decimal "column " " (price)" 42).
  - intros c Hc. cbn in Hc.
    repeat (destruct Hc as [<-|Hc]; [discriminate|]). destruct Hc.
  - vm_compute. split; discriminate.
  - reflexivity.
Defined.

End ParseInputDecimal.

(** ** Project::init: what it rejects *)

Section ProjectValidation.

Import Project.

Lemma extract_int_skip_space (c : ascii) (s : string) :
  isspace c = true -> extract_int (String c s) = extract_int s.
Proof. intros H. unfold extract_int. cbn [skipws]. now rewrite H. Qed.

(** A first character that is neither white space nor a sign is where the
    digits are looked for. *)
Lemma extract_int_no_sign (c : ascii) (s : string) :
  isspace c = false -> c <> "-"%char -> c <> "+"%char ->
  extract_int (String c s)
  = match digits (String c s) None with
    | None => None
    | Some v =>
        if (Int.INT_MIN <=? v) && (v <=? Int.INT_MAX) then Some v else None
    end.
Proof.
  intros Hsp Hm Hp. unfold extract_int. cbn [skipws]. rewrite Hsp.
  destruct c as [[] [] [] [] [] [] [] []]; try reflexivity; congruence.
Qed.

Lemma extract_int_sign (c : ascii) (s : string) :
  c = "-"%char \/ c = "+"%char -> no_digit_ahead s ->
  extract_int (String c s) = None.
Proof.
  intros [-> | ->] Hs; unfold extract_int; cbn [skipws].
  - change (isspace "-"%char) with false. cbv beta iota.
    now rewrite digits_stop.
  - change (isspace "+"%char) with false. cbv beta iota.
    now rewrite digits_stop.
Qed.

Lemma extract_int_no_integer (t : string) :
  no_integer_ahead t -> extract_int t = None.
Proof.
  induction 1 as [|c s Hc _ IH|c s Hc Hs|c s Hsp Hm Hp Hd].
  - reflexivity.
  - now rewrite extract_int_skip_space.
  - now apply extract_int_sign.
  - rewrite extract_int_no_sign by assumption. cbn [digits]. now rewrite Hd.
Qed.

Lemma extract_int_digits_N (x : N) (post : string) :
  (0 < x)%N -> no_digit_ahead post ->
  digits (pretty_N_go x post) None = Some (Z.of_N x).
Proof.
  intros Hx Hpost. destruct (digits_pretty_N_go x Hx) as [m Hm].
  rewrite Hm, digits_stop by exact Hpost.
  unfold default. cbn [from_option id]. f_equal. lia.
Qed.

(** What [ss >> ret] makes of an integer written in decimal, in range or
    not. *)
Lemma extract_int_pretty (z : Z) (post : string) :
  no_digit_ahead post ->
  extract_int (pretty z +:+ post)
  = if (Int.INT_MIN <=? z) && (z <=? Int.INT_MAX) then Some z else None.
Proof.
  intros Hpost. destruct z as [|p|p]; unfold pretty, pretty_Z.
  - change ("0" +:+ post) with (String "0"%char post).
    rewrite extract_int_no_sign by (reflexivity || discriminate).
    cbn [digits]. change (digit "0"%char) with (Some 0). cbv beta iota.
    now rewrite digits_stop.
  - unfold pretty, pretty_positive, pretty, pretty_N.
    destruct (decide (N.pos p = 0%N)) as [|_]; [discriminate|].
    rewrite pretty_N_go_app. change (EmptyString +:+ post) with post.
    destruct (pretty_N_go_head (N.pos p) eq_refl post)
      as (d & rest & Hd & Hhead).
    rewrite Hhead, extract_int_digit_head by exact Hd.
    rewrite <- Hhead, extract_int_digits_N by (exact Hpost || reflexivity).
    reflexivity.
  - unfold pretty, pretty_positive, pretty, pretty_N.
    destruct (decide (N.pos p = 0%N)) as [|_]; [discriminate|].
    change (("-" +:+ pretty_N_go (N.pos p) EmptyString) +:+ post)
      with (String "-"%char (pretty_N_go (N.pos p) EmptyString +:+ post)).
    rewrite pretty_N_go_app. change (EmptyString +:+ post) with post.
    unfold extract_int. cbn [skipws].
    change (isspace "-"%char) with false. cbv beta iota.
    rewrite extract_int_digits_N by (exact Hpost || reflexivity).
    reflexivity.
Qed.

Lemma parseInput_pretty (pre post : string) (z : Z) :
  dollar_free pre -> no_digit_ahead post ->
  parseInput (pre +:+ String "$"%char (pretty z +:+ post))
  = if (Int.INT_MIN <=? z) && (z <=? Int.INT_MAX) then z else -1.
Proof.
  intros Hpre Hpost. unfold parseInput.
  rewrite (after_dollar_prefix _ _ Hpre), (extract_int_pretty z post Hpost).
  now destruct ((Int.INT_MIN <=? z) && (z <=? Int.INT_MAX)).
Qed.

Lemma parseInput_unparsable (s : string) : unparsable s -> parseInput s = -1.
Proof.
  intros [s' Hs|pre t Hpre Ht|pre post z Hpre Hz Hpost].
  - unfold parseInput. now rewrite (after_dollar_none s' Hs).
  - unfold parseInput.
    now rewrite (after_dollar_prefix _ _ Hpre), (extract_int_no_integer t Ht).
  - rewrite (parseInput_pretty pre post z Hpre Hpost).
    destruct (Z.leb_spec Int.INT_MIN z); [|reflexivity].
    destruct (Z.leb_spec z Int.INT_MAX); [lia | reflexivity].
Qed.

Lemma parseInput_negative (pre post : string) (z : Z) :
  dollar_free pre -> z < 0 -> no_digit_ahead post ->
  parseInput (pre +:+ String "$"%char (pretty z +:+ post)) <= -1.
Proof.
  intros Hpre Hz Hpost. rewrite (parseInput_pretty pre post z Hpre Hpost).
  destruct ((Int.INT_MIN <=? z) && (z <=? Int.INT_MAX)); lia.
Qed.

(** [init] stops at the first entry it does not accept. *)
Lemma init_first_rejected (pre post : list string) (e : string) (cols : Z) :
  Forall (accepted cols) pre ->
  snd (init (pre ++ e :: post) cols [])
  = if parseInput e <=? -1 then Some InvalidParameter
    else if cols <=? parseInput e
         then Some IllegalSchemaDeclarationException
         else snd (init post cols (List.map parseInput pre ++ [parseInput e])).
Proof.
  intros Hpre. rewrite (init_accepted_prefix _ _ _ _ Hpre). cbn [init app].
  pose proof (parseInput_range e) as Hr. unfold Int.INT_MAX in Hr.
  destruct (Z.leb_spec (parseInput e) (-1)); [reflexivity|].
  rewrite to_uint32_nonneg by lia.
  destruct (Z.geb_spec (parseInput e) cols);
    destruct (Z.leb_spec cols (parseInput e)); try lia; reflexivity.
Qed.

(** C10.  When [init] goes through, [projlist] holds the parsed entries in
    order, every one of them a column index of the source schema, and
    [Project::map] finds every column it reads in a tuple of that schema.
    When the entries before [e] are accepted, [e] raises [InvalidParameter]
    if [parseInput] returns -1 or less for it, and
    [IllegalSchemaDeclarationException] if it parses to an index at or
    beyond the number of columns.  [InvalidParameter] is what every entry
    gets that is not a dollar sign followed by an [int] (no dollar sign; no
    integer after the first dollar sign; an integer that does not fit an
    [int]), for which [parseInput] returns -1, and every entry whose
    integer is negative. *)
Theorem Project_init_validates (node : list string) (cols : Z) :
  (forall projlist : list Z,
     init node cols [] = (projlist, None) ->
     projlist = List.map parseInput node
     /\ Forall (fun p => 0 <= p < cols) projlist
     /\ (forall (V : Type) (tuple : list V),
           columns tuple = cols ->
           exists out,
             map tuple projlist = Some out
             /\ Forall2 (fun p v => tuple !! Z.to_nat p = Some v)
                        projlist out))
  /\ (forall (pre post : list string) (e : string),
        node = pre ++ e :: post ->
        Forall (accepted cols) pre ->
        (parseInput e <= -1 ->
         snd (init node cols []) = Some InvalidParameter)
        /\ (0 <= parseInput e -> cols <= parseInput e ->
            snd (init node cols [])
            = Some IllegalSchemaDeclarationException)
        /\ (unparsable e ->
            snd (init node cols []) = Some InvalidParameter)
        /\ (forall (p q : string) (z : Z),
              dollar_free p -> z < 0 -> no_digit_ahead q ->
              e = p +:+ String "$"%char (pretty z +:+ q) ->
              snd (init node cols []) = Some InvalidParameter))
  /\ (forall s : string,
        (forall c, In c (list_ascii_of_string s) -> c <> "$"%char) ->
        parseInput s = -1)
  /\ (forall s : string, unparsable s -> parseInput s = -1)
  /\ (forall (p q : string) (z : Z),
        dollar_free p -> no_digit_ahead q ->
        parseInput (p +:+ String "$"%char (pretty z +:+ q))
        = if (Int.INT_MIN <=? z) && (z <=? Int.INT_MAX) then z else -1).
Proof.
  split; [|split; [|split; [|split]]].
  - intros projlist Hinit.
    destruct (init_success _ _ _ _ Hinit) as [Hpl Hacc].
    cbn [app] in Hpl. subst projlist.
    assert (Hall : Forall (fun p => 0 <= p < cols) (List.map parseInput node)).
    { clear Hinit. induction Hacc as [|e node He _ IH]; cbn [List.map];
        constructor; [exact He | exact IH]. }
    split; [reflexivity|]. split; [exact Hall|].
    intros V tuple <-. now apply map_in_range.
  - intros pre post e -> Hpre.
    rewrite (init_first_rejected pre post e cols Hpre).
    assert (Hbad : parseInput e <= -1 ->
                   (if parseInput e <=? -1 then Some InvalidParameter
                    else if cols <=? parseInput e
                         then Some IllegalSchemaDeclarationException
                         else snd (init post cols
                                     (List.map parseInput pre
                                      ++ [parseInput e])))
                   = Some InvalidParameter).
    { intros H. destruct (Z.leb_spec (parseInput e) (-1)); [reflexivity|lia]. }
    split; [exact Hbad|]. split; [|split].
    + intros Hlo Hhi. destruct (Z.leb_spec (parseInput e) (-1)); [lia|].
      destruct (Z.leb_spec cols (parseInput e)); [reflexivity | lia].
    + intros He. apply Hbad. rewrite (parseInput_unparsable e He). lia.
    + intros p q z Hp Hz Hq ->. apply Hbad.
      now apply parseInput_negative.
  - intros s Hs. unfold parseInput. now rewrite (after_dollar_none s Hs).
  - exact parseInput_unparsable.
  - intros p q z Hp Hq. now apply parseInput_pretty.
Qed.

Lemma Project_init_validates_witness :
  let node := ["$2"; "price $0"; "$1"]%string in
  let tuple := ["k"; "v"; "w"]%string in
  (init node 3 [] = ([2; 0; 1], None)
   /\ Forall (fun p => 0 <= p < 3) [2; 0; 1]
   /\ exists out, map tuple [2; 0; 1] = Some out)
  /\ snd (init ["$1"%string; "$abc"%string; "$0"%string] 3 [])
     = Some InvalidParameter
  /\ snd (init ["$1"%string; "$ -x"%string] 3 []) = Some InvalidParameter
  /\ snd (init ["$1"%string; "$3"%string] 3 [])
     = Some IllegalSchemaDeclarationException.
Proof.
  intros node tuple.
  assert (Hinit : init node 3 [] = ([2; 0; 1], None)) by reflexivity.
  assert (Hacc : Forall (accepted 3) ["$1"%string]).
  { constructor; [|constructor]. unfold accepted. vm_compute.
    split; [discriminate | reflexivity]. }
  assert (Hfree : dollar_free EmptyString) by (intros c []).
  split; [|split; [|split]].
  - destruct (Project_init_validates node 3) as [Hok _].
    destruct (Hok [2; 0; 1] Hinit) as (_ & Hall & Hmap).
    split; [exact Hinit|]. split; [exact Hall|].
    destruct (Hmap string tuple eq_refl) as (out & Hout & _).
    now exists out.
  - destruct (Project_init_validates
                ["$1"%string; "$abc"%string; "$0"%string] 3)
      as (_ & Hrej & _).
    destruct (Hrej ["$1"%string] ["$0"%string] "$abc"%string eq_refl Hacc)
      as (_ & _ & Hun & _).
    apply Hun.
    apply (unparsable_no_integer EmptyString "abc" Hfree).
    apply no_integer_other; [reflexivity | discriminate | discriminate
                            | reflexivity].
  - destruct (Project_init_validates ["$1"%string; "$ -x"%string] 3)
      as (_ & Hrej & _).
    destruct (Hrej ["$1"%string] [] "$ -x"%string eq_refl Hacc)
      as (_ & _ & Hun & _).
    apply Hun.
    apply (unparsable_no_integer EmptyString " -x" Hfree).
    apply no_integer_space; [reflexivity|].
    apply no_integer_sign; [now left | reflexivity].
  - destruct (Project_init_validates ["$1"%string; "$3"%string] 3)
      as (_ & Hrej & _).
    destruct (Hrej ["$1"%string] [] "$3"%string eq_refl Hacc)
      as (_ & Hill & _).
    apply Hill; vm_compute; discriminate.
Defined.

End ProjectValidation.
